(** * Verification of [tools/generate_flecs_src_files.py]

    The tool scans [native/flecs/src] for [.c] files, renders them as the Zig
    array [src_files], and with [--apply] rewrites that array inside
    [src/Flecs.NET.Native/build.zig], keeping the previous file as
    [build.zig.bak].

    The development is a shallow embedding of the script:
    - a Python [str] is a list of code points ([text]);
    - a [pathlib] path is its list of parts, an absolute path starting with
      the part ["/"] (POSIX flavour);
    - the file system is a finite map from paths, as the process spells them,
      to nodes, together with the standard output and an oracle for the
      failures of the operating system that the map does not determine
      (permissions, full disk, undecodable bytes);
    - effectful code lives in a state-and-exception monad [M];
    - [re.subn] is a backtracking matcher over the atoms of the pattern.

    Files are held as decoded text: the UTF-8 codec and the newline
    translation of text-mode files are outside the model; so are symbolic
    links, the Windows flavour of [pathlib], and other processes that touch
    the same files.  [REPO_ROOT], which the script derives from its own
    location, is a parameter.

    The definitions come first; the properties follow, in the order: orders
    and sorting, renderer, discoverer, matcher and patcher, orchestrator. *)

From Stdlib Require Import NArith String Ascii.
From stdpp Require Import gmap list sorting fin_maps.

Open Scope N_scope.
Open Scope list_scope.

(** ** Text *)

(** A Python [str]: a sequence of Unicode code points. *)
Abbreviation text := (list N).

(** The code points of an ASCII literal. *)
Definition txt (s : string) : text :=
  map N_of_ascii (list_ascii_of_string s).

Definition NL : N := 10.
Definition DQUOTE : N := 34.
Definition SLASH : N := 47.
Definition BACKSLASH : N := 92.

(** *** Lexicographic comparison, as [<] on [str], on tuples and on lists *)

Section Lex.
Context {A : Type} (cmp : A → A → comparison).

Fixpoint lex_compare (l1 l2 : list A) : comparison :=
  match l1, l2 with
  | [], [] => Eq
  | [], _ :: _ => Lt
  | _ :: _, [] => Gt
  | x :: l1', y :: l2' =>
      match cmp x y with
      | Eq => lex_compare l1' l2'
      | c => c
      end
  end.

Definition lex_leb (l1 l2 : list A) : bool :=
  match lex_compare l1 l2 with Gt => false | _ => true end.

End Lex.

(** [a <= b] on [str]: code point by code point. *)
Definition text_compare : text → text → comparison := lex_compare N.compare.
Definition text_le (a b : text) : Prop := lex_leb N.compare a b = true.

Global Instance text_le_dec : RelDecision text_le.
Proof. intros a b. unfold text_le. apply _. Defined.

(** [sorted(xs)] on a list of [str].  The order is total and antisymmetric,
    so every sorting algorithm returns the same list. *)
Definition sorted_text (l : list text) : list text := merge_sort text_le l.

(** *** The [str] methods the script uses *)

(** [s.startswith(p)] *)
Fixpoint startswith (p s : text) : bool :=
  match p, s with
  | [], _ => true
  | _ :: _, [] => false
  | a :: p', b :: s' => (a =? b) && startswith p' s'
  end.

(** [s.split(sep)] for a one-character separator: never empty. *)
Fixpoint split (sep : N) (s : text) : list text :=
  match s with
  | [] => [[]]
  | c :: s' =>
      if c =? sep then [] :: split sep s'
      else match split sep s' with
           | [] => [[c]]
           | w :: ws => (c :: w) :: ws
           end
  end.

(** [sep.join(xs)] *)
Fixpoint join (sep : text) (xs : list text) : text :=
  match xs with
  | [] => []
  | [x] => x
  | x :: xs' => x ++ sep ++ join sep xs'
  end.

(** [s.replace(a, b)] for one-character [a] and [b]. *)
Definition replace_char (a b : N) (s : text) : text :=
  map (λ c, if c =? a then b else c) s.

(** ** The renderer *)

Definition ZIG_ARRAY_HEADER : text := txt "const src_files = [_][]const u8{".

Definition prefix : text := txt "native/flecs/src/".
Definition core : text := txt "core".

(** The [groups] dict: keys in insertion order, as Python keeps them. *)
Definition groups_t := list (text * list text).

Fixpoint groups_get (g : text) (groups : groups_t) : option (list text) :=
  match groups with
  | [] => None
  | (k, v) :: rest => if decide (k = g) then Some v else groups_get g rest
  end.

(** [groups.setdefault(group, []).append(e)] *)
Fixpoint setdefault_append (g : text) (e : text) (groups : groups_t) : groups_t :=
  match groups with
  | [] => [(g, [e])]
  | (k, v) :: rest =>
      if decide (k = g) then (k, v ++ [e]) :: rest
      else (k, v) :: setdefault_append g e rest
  end.

Definition keys (groups : groups_t) : list text := map fst groups.

(** The group of an entry that starts with [prefix]. *)
Definition group_of (e : text) : text :=
  let rel := drop (length prefix) e in
  let parts := split SLASH rel in
  if (length parts =? 1)%nat then core else hd [] parts.

(** The loop [for e in entries] that fills [groups]. *)
Definition add_entry (groups : groups_t) (e : text) : groups_t :=
  if negb (startswith prefix e) then groups
  else setdefault_append (group_of e) e groups.

Definition build_groups (entries : list text) : groups_t :=
  fold_left add_entry entries [].

Definition ordered_groups (groups : groups_t) : list text :=
  (if decide (core ∈ keys groups) then [core] else [])
  ++ sorted_text (filter (λ k, k ≠ core) (keys groups)).

Definition entry_line (p : text) : text :=
  txt "    " ++ [DQUOTE] ++ txt "../../" ++ p ++ [DQUOTE] ++ txt ",".

Definition group_lines (groups : groups_t) (gname : text) : list text :=
  (txt "    // " ++ gname)
  :: map entry_line (sorted_text (default [] (groups_get gname groups)))
  ++ [[]].

Definition format_zig_array (entries : list text) : text :=
  let lines :=
    [ZIG_ARRAY_HEADER;
     txt "    " ++ [DQUOTE] ++ txt "../../native/flecs_helpers.c" ++ [DQUOTE] ++ txt ",";
     []] in
  let groups := build_groups entries in
  let lines := lines ++ concat (map (group_lines groups) (ordered_groups groups)) in
  let lines := lines ++ [txt "};"] in
  join [NL] lines.

(** ** Paths *)

(** A [pathlib] path is the list of its parts; an absolute POSIX path has
    ["/"] as its first part.  [Path('.')] has no parts. *)
Abbreviation path := (list text).

Definition is_absolute (p : path) : bool :=
  match p with
  | r :: _ => bool_decide (r = txt "/")
  | [] => false
  end.

(** [p / name] for a one-part relative [name]. *)
Definition div (p : path) (name : text) : path := p ++ [name].
Infix "/:" := div (at level 40, left associativity).

(** [str(p)] *)
Definition str (p : path) : text :=
  match p with
  | [] => txt "."
  | r :: segs =>
      if bool_decide (r = txt "/") then r ++ join [SLASH] segs
      else join [SLASH] p
  end.

Fixpoint strip_prefix (q p : path) : option path :=
  match q, p with
  | [], _ => Some p
  | _ :: _, [] => None
  | a :: q', b :: p' => if decide (a = b) then strip_prefix q' p' else None
  end.

(** [p.relative_to(other)]; [None] stands for the [ValueError]. *)
Definition relative_to (p other : path) : option path :=
  match other with
  | [] => if is_absolute p then None else Some p
  | _ :: _ => strip_prefix other p
  end.

(** [p.name] *)
Definition name (p : path) : text :=
  match last p with
  | Some n => if bool_decide (n = txt "/") then [] else n
  | None => []
  end.

(** [s.rfind(c)], [None] for -1. *)
Fixpoint rfind (c : N) (s : text) : option nat :=
  match s with
  | [] => None
  | x :: s' =>
      match rfind c s' with
      | Some i => Some (S i)
      | None => if x =? c then Some 0%nat else None
      end
  end.

(** [p.suffix], on the name. *)
Definition suffix (n : text) : text :=
  match rfind 46 n with
  | Some i => if ((0 <? i) && (i <? length n - 1))%nat then drop i n else []
  | None => []
  end.

(** [p.with_suffix(suffix)]; [None] stands for the [ValueError] of a path
    without a name. *)
Definition with_suffix (p : path) (sfx : text) : option path :=
  let n := name p in
  match n with
  | [] => None
  | _ :: _ =>
      let old := suffix n in
      Some (take (length p - 1) p ++ [take (length n - length old) n ++ sfx])
  end.

(** Paths are ordered as [pathlib] orders them: by their parts. *)
Definition path_le (p q : path) : Prop := lex_leb text_compare p q = true.

Global Instance path_le_dec : RelDecision path_le.
Proof. intros p q. unfold path_le. apply _. Defined.

(** [sorted(paths)] *)
Definition sorted_paths (l : list path) : list path := merge_sort path_le l.

(** ** The world: file system, standard output, failures *)

Inductive node :=
| File (content : text)
| Dir.

Global Instance node_eq_dec : EqDecision node.
Proof. solve_decision. Defined.

(** The subclasses of [Exception] that the script can meet. *)
Inductive exception :=
| FileNotFoundError
| IsADirectoryError
| NotADirectoryError
| PermissionError
| OSError
| UnicodeDecodeError
| ValueError
| ReError.

Global Instance exception_eq_dec : EqDecision exception.
Proof. solve_decision. Defined.

(** What a statement can raise.  [SystemExit] derives from [BaseException],
    not from [Exception]: [except Exception] does not catch it. *)
Inductive raised :=
| SystemExit (msg : text)
| Exc (e : exception).

Global Instance raised_eq_dec : EqDecision raised.
Proof. solve_decision. Defined.

(** Failures that the operating system may deliver whatever the map says.
    A failed write may leave a file behind: [write_fault p t] gives what is
    at [p] afterwards ([None]: the file was not created) and the error. *)
Record faults := Faults {
  read_fault : path → option exception;
  write_fault : path → text → option (option text * exception);
  unlink_fault : path → option exception;
  replace_fault : path → path → option exception
}.

Definition no_faults : faults :=
  {| read_fault := λ _, None;
     write_fault := λ _ _, None;
     unlink_fault := λ _, None;
     replace_fault := λ _ _, None |}.

Record world := World {
  fs : gmap path node;
  stdout : list text;
  io : faults
}.

Definition set_fs (w : world) (m : gmap path node) : world :=
  {| fs := m; stdout := stdout w; io := io w |}.

(** ** The monad of the script: state and exceptions *)

Inductive result (A : Type) :=
| Ok (a : A)
| Raise (e : raised).
Arguments Ok {A} a.
Arguments Raise {A} e.

Definition M (A : Type) : Type := world → result A * world.

Definition ret {A} (a : A) : M A := λ w, (Ok a, w).

Definition bind {A B} (m : M A) (k : A → M B) : M B :=
  λ w, match m w with
       | (Ok a, w') => k a w'
       | (Raise e, w') => (Raise e, w')
       end.

Definition raise {A} (e : raised) : M A := λ w, (Raise e, w).

(** [try: body  except Exception: handler] where the handler gets the
    exception; anything else that is raised passes through. *)
Definition try_except {A} (body : M A) (handler : exception → M A) : M A :=
  λ w, match body w with
       | (Raise (Exc e), w') => handler e w'
       | r => r
       end.

Global Instance M_ret : MRet M := @ret.
Global Instance M_bind : MBind M := λ A B k m, bind m k.

(** The exit status of the process: [SystemExit] with a message and an
    uncaught exception both end it with status 1. *)
Definition exit_status {A} (r : result A) : Z :=
  match r with
  | Ok _ => 0%Z
  | Raise _ => 1%Z
  end.

(** *** [pathlib] and [print] *)

(** [p.exists()] *)
Definition exists_ (p : path) : M bool :=
  λ w, (Ok (bool_decide (is_Some (fs w !! p))), w).

(** [name] matches the pattern [*ext]. *)
Definition endswith (ext n : text) : bool := startswith (reverse ext) (reverse n).

Definition under (root p : path) : bool :=
  match strip_prefix root p with
  | Some (_ :: _) => true
  | _ => false
  end.

(** [root.rglob('*' + ext)]: every path below [root], file or directory,
    whose name matches; nothing when [root] is not a directory.  The order of
    the traversal is the order of the map: callers sort. *)
Definition matches (ext : text) (root : path) (kv : path * node) : bool :=
  under root kv.1 && endswith ext (name kv.1).

Definition rglob_paths (ext : text) (root : path) (m : gmap path node) : list path :=
  match m !! root with
  | Some Dir => (map_to_list (filter (λ kv, matches ext root kv) m)).*1
  | _ => []
  end.

Definition rglob (ext : text) (root : path) : M (list path) :=
  λ w, (Ok (rglob_paths ext root (fs w)), w).

(** [p.read_text(encoding='utf-8')] *)
Definition read_text (p : path) : M text :=
  λ w, match read_fault (io w) p with
       | Some e => (Raise (Exc e), w)
       | None =>
           match fs w !! p with
           | Some (File t) => (Ok t, w)
           | Some Dir => (Raise (Exc IsADirectoryError), w)
           | None => (Raise (Exc FileNotFoundError), w)
           end
       end.

(** [p.write_text(t, encoding='utf-8')] *)
Definition write_text (p : path) (t : text) : M unit :=
  λ w, match write_fault (io w) p t with
       | Some (Some partial, e) => (Raise (Exc e), set_fs w (<[p := File partial]> (fs w)))
       | Some (None, e) => (Raise (Exc e), w)
       | None =>
           match fs w !! p with
           | Some Dir => (Raise (Exc IsADirectoryError), w)
           | _ => (Ok tt, set_fs w (<[p := File t]> (fs w)))
           end
       end.

(** [p.unlink()] *)
Definition unlink (p : path) : M unit :=
  λ w, match unlink_fault (io w) p with
       | Some e => (Raise (Exc e), w)
       | None =>
           match fs w !! p with
           | Some (File _) => (Ok tt, set_fs w (delete p (fs w)))
           | Some Dir => (Raise (Exc IsADirectoryError), w)
           | None => (Raise (Exc FileNotFoundError), w)
           end
       end.

(** Moving a directory moves what is below it. *)
Definition rebase (src dst p : path) : path :=
  match strip_prefix src p with
  | Some rest => dst ++ rest
  | None => p
  end.

Definition move_tree (src dst : path) (m : gmap path node) : gmap path node :=
  map_fold (λ k v acc, <[rebase src dst k := v]> acc) ∅ (delete dst m).

Definition has_children (p : path) (m : gmap path node) : bool :=
  bool_decide (filter (λ kv, under p kv.1 = true) m ≠ ∅).

(** [src.replace(dst)], that is [rename(2)]: a file replaces a file, a
    directory replaces an empty directory. *)
Definition replace (src dst : path) : M unit :=
  λ w, match replace_fault (io w) src dst with
       | Some e => (Raise (Exc e), w)
       | None =>
           match fs w !! src with
           | None => (Raise (Exc FileNotFoundError), w)
           | Some (File t) =>
               match fs w !! dst with
               | Some Dir => (Raise (Exc IsADirectoryError), w)
               | _ => (Ok tt, set_fs w (<[dst := File t]> (delete src (fs w))))
               end
           | Some Dir =>
               match fs w !! dst with
               | Some (File _) => (Raise (Exc NotADirectoryError), w)
               | Some Dir =>
                   if has_children dst (fs w) then (Raise (Exc OSError), w)
                   else (Ok tt, set_fs w (move_tree src dst (fs w)))
               | None => (Ok tt, set_fs w (move_tree src dst (fs w)))
               end
           end
       end.

(** [print(t)] *)
Definition print (t : text) : M unit :=
  λ w, (Ok tt, {| fs := fs w; stdout := stdout w ++ [t]; io := io w |}).

(** ** Regular expressions: [re.subn]

    The pattern of the script is a sequence of atoms: one character of a
    class, a greedy [c*] or [c+], a lazy [c*?].  [match_here] is the
    backtracking matcher of [re]: it returns the length of the first match
    at the start of the text, in the order in which [re] tries the
    alternatives (greedy: longest first; lazy: shortest first). *)

Inductive atom :=
| One (c : N → bool)
| StarG (c : N → bool)
| PlusG (c : N → bool)
| StarL (c : N → bool).

Fixpoint greedy (c : N → bool) (k : text → option nat) (s : text) : option nat :=
  match s with
  | x :: s' =>
      if c x then
        match greedy c k s' with
        | Some n => Some (S n)
        | None => k s
        end
      else k s
  | [] => k s
  end.

Fixpoint lazy (c : N → bool) (k : text → option nat) (s : text) : option nat :=
  match k s with
  | Some n => Some n
  | None =>
      match s with
      | x :: s' => if c x then S <$> lazy c k s' else None
      | [] => None
      end
  end.

Fixpoint match_here (r : list atom) : text → option nat :=
  match r with
  | [] => λ _, Some 0%nat
  | One c :: r' => λ s,
      match s with
      | x :: s' => if c x then S <$> match_here r' s' else None
      | [] => None
      end
  | StarG c :: r' => greedy c (match_here r')
  | PlusG c :: r' => λ s,
      match s with
      | x :: s' => if c x then S <$> greedy c (match_here r') s' else None
      | [] => None
      end
  | StarL c :: r' => lazy c (match_here r')
  end.

(** The scan of [re.subn]: at each position the leftmost match is replaced
    and the scan resumes behind it; [skip] counts the characters of a match
    still to be passed.  The scan is that of [re] for a pattern that matches
    no empty text, as the one of the script ([PATTERN_not_empty]); an empty
    match is left alone here. *)
Fixpoint subn_scan (r : list atom) (repl : text) (s : text) (skip : nat) : text * nat :=
  match s with
  | [] => ([], 0%nat)
  | x :: s' =>
      match skip with
      | S k => subn_scan r repl s' k
      | O =>
          match match_here r (x :: s') with
          | Some (S n) =>
              let '(out, cnt) := subn_scan r repl s' n in (repl ++ out, S cnt)
          | _ =>
              let '(out, cnt) := subn_scan r repl s' 0 in (x :: out, cnt)
          end
      end
  end.

(** The replacement of [re.subn] is a template.  Without a backslash it
    stands for itself.  With one it holds escape sequences, which [re]
    expands or rejects by rules that changed between Python versions; the
    script never builds such a replacement ([generated_no_backslash]) and
    this development counts it as rejected. *)
Definition compile_template (repl : text) : option text :=
  if bool_decide (BACKSLASH ∈ repl) then None else Some repl.

(** [re.subn(pattern, repl, s)]; [None] stands for [re.error]. *)
Definition subn (r : list atom) (repl s : text) : option (text * nat) :=
  match compile_template repl with
  | None => None
  | Some repl' => Some (subn_scan r repl' s 0)
  end.

(** [\s] on [str]: the code points for which [str.isspace] holds. *)
Definition is_space (c : N) : bool :=
  ((9 <=? c) && (c <=? 13)) || ((28 <=? c) && (c <=? 32))
  || (c =? 133) || (c =? 160) || (c =? 5760)
  || ((8192 <=? c) && (c <=? 8202))
  || (c =? 8232) || (c =? 8233) || (c =? 8239) || (c =? 8287) || (c =? 12288).

(** [[\s\S]] *)
Definition any_char (c : N) : bool := is_space c || negb (is_space c).

Definition lit (c : N) : atom := One (N.eqb c).
Definition lits (s : string) : list atom := map lit (txt s).

(** [const\s+src_files\s*=\s*\[\_]\[\]const\s+u8\{[\s\S]*?\n\};\n] *)
Definition PATTERN : list atom :=
  lits "const" ++ [PlusG is_space] ++ lits "src_files" ++ [StarG is_space]
  ++ lits "=" ++ [StarG is_space] ++ lits "[_][]const" ++ [PlusG is_space]
  ++ lits "u8{" ++ [StarL any_char] ++ [lit NL] ++ lits "};" ++ [lit NL].

(** ** The patcher *)

Definition NOT_FOUND : raised :=
  SystemExit (txt "Failed to locate src_files block in build.zig").

(** The text that [replace_block_in_build] returns and that
    [replace_block_in_build_paths] writes. *)
Definition replace_block (txt0 new_block : text) : result text :=
  match subn PATTERN (new_block ++ [NL; NL]) txt0 with
  | None => Raise (Exc ReError)
  | Some (new_txt, n) =>
      if (n =? 0)%nat then Raise NOT_FOUND else Ok new_txt
  end.

Definition lift {A} (r : result A) : M A := λ w, (r, w).

Definition replace_block_in_build (build_path : path) (new_block : text) : M text :=
  txt0 ← read_text build_path;
  lift (replace_block txt0 new_block).

Definition replace_block_in_build_paths (input_path output_path : path)
    (new_block : text) : M unit :=
  txt0 ← read_text input_path;
  new_txt ← lift (replace_block txt0 new_block);
  write_text output_path new_txt.

(** ** The discoverer *)

Section Tool.

(** [REPO_ROOT = Path(__file__).resolve().parents[1]]: where the script is
    installed. *)
Variable REPO_ROOT : path.

Definition entry_of (p : path) : text :=
  let rel := match relative_to p REPO_ROOT with
             | Some rel => rel
             | None => p
             end in
  replace_char BACKSLASH SLASH (str rel).

Definition find_c_files (root : path) : M (list text) :=
  b ← exists_ root;
  if negb b then
    raise (SystemExit (txt "Source directory not found: " ++ str root))
  else
    ps ← rglob (txt ".c") root;
    ret (map entry_of (sorted_paths ps)).

(** ** The apply orchestrator *)

Record Args := { root : path; apply : bool }.

Definition src_root (root : path) : path :=
  root /: txt "native" /: txt "flecs" /: txt "src".

Definition build_path_of (root : path) : path :=
  root /: txt "src" /: txt "Flecs.NET.Native" /: txt "build.zig".

Definition main (args : Args) : M unit :=
  entries ← find_c_files (src_root (root args));
  let generated := format_zig_array entries in
  print generated;;
  if apply args then
    let build_path := build_path_of (root args) in
    match with_suffix build_path (txt ".zig.bak") with
    | None => raise (Exc ValueError)
    | Some backup =>
        b ← exists_ build_path;
        src_input ←
          (if (b : bool) then
             replace build_path backup;; ret backup
           else
             b' ← exists_ backup;
             if (b' : bool) then ret backup
             else raise (SystemExit (txt "Neither " ++ str build_path ++ txt " nor "
                                     ++ str backup ++ txt " exist; cannot apply")));
        try_except
          (replace_block_in_build_paths src_input build_path generated;;
           print (txt "Applied updated src_files to " ++ str build_path
                  ++ txt " (backup at " ++ str backup ++ txt ")"))
          (λ e,
             b ← exists_ build_path;
             (if (b : bool) then try_except (unlink build_path) (λ _, ret tt)
              else ret tt);;
             raise (Exc e))
    end
  else ret tt.

End Tool.

(** ** The wording of the specification, and sample inputs *)

(** Two maps with the same tree under [root]. *)
Definition same_tree (root : path) (m1 m2 : gmap path node) : Prop :=
  m1 !! root = m2 !! root ∧ ∀ p, under root p = true → m1 !! p = m2 !! p.


Definition line (s : string) : text := txt s.

(** The block for [a.c], [b/x.c], [b/y.c] and [c/z.c], line by line. *)
Definition four_files_block : text :=
  join [NL]
    [ line "const src_files = [_][]const u8{";
      line "    " ++ [DQUOTE] ++ line "../../native/flecs_helpers.c" ++ [DQUOTE] ++ line ",";
      line "";
      line "    // core";
      line "    " ++ [DQUOTE] ++ line "../../native/flecs/src/a.c" ++ [DQUOTE] ++ line ",";
      line "";
      line "    // b";
      line "    " ++ [DQUOTE] ++ line "../../native/flecs/src/b/x.c" ++ [DQUOTE] ++ line ",";
      line "    " ++ [DQUOTE] ++ line "../../native/flecs/src/b/y.c" ++ [DQUOTE] ++ line ",";
      line "";
      line "    // c";
      line "    " ++ [DQUOTE] ++ line "../../native/flecs/src/c/z.c" ++ [DQUOTE] ++ line ",";
      line "";
      line "};" ].

Definition four_files : list text :=
  [ txt "native/flecs/src/a.c"; txt "native/flecs/src/b/x.c";
    txt "native/flecs/src/b/y.c"; txt "native/flecs/src/c/z.c" ].

(** The discoverer as the specification words it: every entry is the path
    of a discovered file, taken relative to a project root and written with
    forward slashes. *)
Definition entries_relative (REPO_ROOT root : path) (w : world) : Prop :=
  ∀ l, (find_c_files REPO_ROOT root w).1 = Ok l →
  ∀ e, e ∈ l →
  ∃ project rel,
    is_Some (fs w !! (project ++ rel)) ∧ under root (project ++ rel) = true
    ∧ rel ≠ [] ∧ is_absolute rel = false
    ∧ e = replace_char BACKSLASH SLASH (str rel).

(** *** Sample trees *)

Definition parts (l : list string) : path := map txt l.

(** The script is installed in [/repo/tools]. *)
Definition repo : path := parts ["/"; "repo"]%string.

Definition old_build : text :=
  join [NL]
    [ line "// build script";
      line "const src_files = [_][]const u8{";
      line "    old.c,";
      line "};";
      line "";
      line "pub fn build() void {}";
      line "" ].

(** A checkout in [/repo]. *)
Definition repo_fs : gmap path node :=
  list_to_map
    [ (parts ["/"; "repo"; "native"; "flecs"; "src"]%string, Dir);
      (parts ["/"; "repo"; "native"; "flecs"; "src"; "a.c"]%string, File []);
      (parts ["/"; "repo"; "native"; "flecs"; "src"; "b"]%string, Dir);
      (parts ["/"; "repo"; "native"; "flecs"; "src"; "b"; "x.c"]%string, File []);
      (parts ["/"; "repo"; "native"; "flecs"; "src"; "b"; "x.h"]%string, File []);
      (parts ["/"; "repo"; "src"; "Flecs.NET.Native"; "build.zig"]%string, File old_build) ].

Definition repo_world : world := World repo_fs [] no_faults.

(** Another checkout, in [/other]. *)
Definition other : path := parts ["/"; "other"]%string.

Definition other_fs : gmap path node :=
  list_to_map
    [ (parts ["/"; "other"; "native"; "flecs"; "src"]%string, Dir);
      (parts ["/"; "other"; "native"; "flecs"; "src"; "a.c"]%string, File []) ].

Definition other_world : world := World other_fs [] no_faults.

(** A checkout in the working directory, named by relative paths: the
    tool is run with [--root .]. *)
Definition cwd_fs : gmap path node :=
  list_to_map
    [ (parts ["native"; "flecs"; "src"]%string, Dir);
      (parts ["native"; "flecs"; "src"; "a.c"]%string, File []) ].

Definition cwd_world : world := World cwd_fs [] no_faults.

(** A checkout in the directory [other] of the working directory: the tool
    is run with [--root other]. *)
Definition elsewhere : path := parts ["other"]%string.

Definition elsewhere_fs : gmap path node :=
  list_to_map
    [ (parts ["other"; "native"; "flecs"; "src"]%string, Dir);
      (parts ["other"; "native"; "flecs"; "src"; "a.c"]%string, File []) ].

Definition elsewhere_world : world := World elsewhere_fs [] no_faults.

Definition empty_world : world := World ∅ [] no_faults.

(** The block without any group: header, helper entry, blank line, closing
    delimiter. *)
Definition bare_block : text :=
  join [NL]
    [ line "const src_files = [_][]const u8{";
      line "    " ++ [DQUOTE] ++ line "../../native/flecs_helpers.c" ++ [DQUOTE] ++ line ",";
      line "";
      line "};" ].

(** [--root] names a place outside the repository of the script. *)
Definition outside (REPO_ROOT root : path) : Prop := ∀ rel, root ≠ REPO_ROOT ++ rel.

(** What is claimed for such a root: no discovered entry has the prefix, and
    the block is the bare one. *)
Definition outside_renders_bare (REPO_ROOT root : path) (w : world) : Prop :=
  outside REPO_ROOT root →
  ∀ l, (find_c_files REPO_ROOT (src_root root) w).1 = Ok l →
  Forall (λ e, startswith prefix e = false) l ∧ format_zig_array l = bare_block.

(** What every entry that is kept whole starts with: the string of the
    source directory of [root], with forward slashes, and a slash. *)
Definition source_string (root : path) : text :=
  replace_char BACKSLASH SLASH (str (src_root root)) ++ [SLASH].

(** *** The pattern, in words

    A block starts with the declaration header, where [\s+] and [\s*] stand
    for runs of white space, and ends with the first closing delimiter: a
    line that holds [};] alone. *)

Definition spaces (ws : text) : Prop := Forall (λ c, is_space c = true) ws.

Definition CLOSING : text := [NL] ++ txt "};" ++ [NL].

(** No closing delimiter ends inside [body ++ CLOSING] before its end. *)
Definition first_closing (body : text) : Prop :=
  ∀ b1 b2, body ++ CLOSING = b1 ++ CLOSING ++ b2 → b2 = [].

Definition is_block (m : text) : Prop :=
  ∃ w1 w2 w3 w4 body,
    spaces w1 ∧ w1 ≠ [] ∧ spaces w2 ∧ spaces w3 ∧ spaces w4 ∧ w4 ≠ []
    ∧ first_closing body
    ∧ m = txt "const" ++ w1 ++ txt "src_files" ++ w2 ++ txt "=" ++ w3
          ++ txt "[_][]const" ++ w4 ++ txt "u8{" ++ body ++ CLOSING.

(** A block starts at the beginning of [s]. *)
Definition starts_block (s : text) : Prop :=
  ∃ m rest, s = m ++ rest ∧ is_block m.

(** A block starts somewhere in [s]. *)
Definition has_block (s : text) : Prop :=
  ∃ pre rest, s = pre ++ rest ∧ starts_block rest.

(** The block [m] is the leftmost one of [pre ++ m ++ post]: none starts
    inside [pre]. *)
Definition leftmost (pre m post : text) : Prop :=
  is_block m
  ∧ ∀ p1 p2, pre = p1 ++ p2 → p2 ≠ [] → ¬ starts_block (p2 ++ m ++ post).

(** The matcher for [r] accepts the texts of [L], and returns their length. *)
Definition spec_by (r : list atom) (L : text → Prop) : Prop :=
  ∀ s n, match_here r s = Some n ↔ ∃ m rest, s = m ++ rest ∧ length m = n ∧ L m.

(** The language of a pattern starts with a character that is no space. *)
Definition solid (L : text → Prop) : Prop :=
  ∀ m, L m → ∃ x m', m = x :: m' ∧ is_space x = false.

(** The patcher as the specification words it: more than one match is an
    error. *)
Definition one_match_required (s blk : text) : Prop :=
  (∃ pre m1 mid m2 post,
      s = pre ++ m1 ++ mid ++ m2 ++ post ∧ is_block m1 ∧ is_block m2) →
  ∃ e, replace_block s blk = Raise e.

(** The shortest block, and a text that holds it twice. *)
Definition minimal_block : text := txt "const src_files = [_][]const u8{" ++ CLOSING.
Definition two_blocks : text := minimal_block ++ minimal_block.

(** A text without a backslash. *)
Definition clean (t : text) : Prop := BACKSLASH ∉ t.

(** Group names and members hold no backslash. *)
Definition clean_groups (groups : groups_t) : Prop :=
  Forall (λ kv, clean kv.1 ∧ Forall clean kv.2) groups.

(** *** The steps of [main] under [--apply], named *)

Definition backup_path_of (root : path) : path :=
  root /: txt "src" /: txt "Flecs.NET.Native" /: txt "build.zig.bak".

(** The choice of the file to read: the [if build_path.exists()] statement. *)
Definition choose_input (build_path backup : path) : M path :=
  b ← exists_ build_path;
  if (b : bool) then
    replace build_path backup;; ret backup
  else
    b' ← exists_ backup;
    if (b' : bool) then ret backup
    else raise (SystemExit (txt "Neither " ++ str build_path ++ txt " nor "
                            ++ str backup ++ txt " exist; cannot apply")).

(** The [try] statement around the patcher. *)
Definition guarded_patch (src_input build_path backup : path) (generated : text) : M unit :=
  try_except
    (replace_block_in_build_paths src_input build_path generated;;
     print (txt "Applied updated src_files to " ++ str build_path
            ++ txt " (backup at " ++ str backup ++ txt ")"))
    (λ e,
       b ← exists_ build_path;
       (if (b : bool) then try_except (unlink build_path) (λ _, ret tt)
        else ret tt);;
       raise (Exc e)).

(** The block that a run renders from the map. *)
Definition generated_of (REPO_ROOT root : path) (m : gmap path node) : text :=
  format_zig_array
    (map (entry_of REPO_ROOT) (sorted_paths (rglob_paths (txt ".c") (src_root root) m))).

Definition applying (r : path) : Args := {| root := r; apply := true |}.

(** Pattern-not-found as the specification words it: the run fails and the
    target file is what it was. *)
Definition target_untouched (REPO_ROOT r : path) (w : world) : Prop :=
  ∀ t, fs w !! build_path_of r = Some (File t) → ¬ has_block t →
  ∀ res w', main REPO_ROOT (applying r) w = (res, w') →
  res = Raise NOT_FOUND ∧ fs w' !! build_path_of r = Some (File t).

(** A build file without a [src_files] block. *)
Definition plain_build : text := line "pub fn build() void {}" ++ [NL].

Definition plain_world : world :=
  World (<[build_path_of repo := File plain_build]> repo_fs) [] no_faults.

(** A disk that fails every write half way and refuses to delete. *)
Definition bad_disk : faults :=
  {| read_fault := λ _, None;
     write_fault := λ _ t, Some (Some (take 10 t), OSError);
     unlink_fault := λ _, Some PermissionError;
     replace_fault := λ _ _, None |}.

Definition bad_disk_world : world := World repo_fs [] bad_disk.

(** The line that [main] prints after a successful apply. *)
Definition applied_message (r : path) : text :=
  txt "Applied updated src_files to " ++ str (build_path_of r)
  ++ txt " (backup at " ++ str (backup_path_of r) ++ txt ")".

(** The build file of the sample checkout after one apply, and after two. *)
Definition patched_once : text :=
  join [NL]
    [ line "// build script";
      line "const src_files = [_][]const u8{";
      line "    " ++ [DQUOTE] ++ line "../../native/flecs_helpers.c" ++ [DQUOTE] ++ line ",";
      line "";
      line "    // core";
      line "    " ++ [DQUOTE] ++ line "../../native/flecs/src/a.c" ++ [DQUOTE] ++ line ",";
      line "";
      line "    // b";
      line "    " ++ [DQUOTE] ++ line "../../native/flecs/src/b/x.c" ++ [DQUOTE] ++ line ",";
      line "";
      line "};";
      line "";
      line "";
      line "pub fn build() void {}";
      line "" ].

Definition patched_twice : text :=
  join [NL]
    [ line "// build script";
      line "const src_files = [_][]const u8{";
      line "    " ++ [DQUOTE] ++ line "../../native/flecs_helpers.c" ++ [DQUOTE] ++ line ",";
      line "";
      line "    // core";
      line "    " ++ [DQUOTE] ++ line "../../native/flecs/src/a.c" ++ [DQUOTE] ++ line ",";
      line "";
      line "    // b";
      line "    " ++ [DQUOTE] ++ line "../../native/flecs/src/b/x.c" ++ [DQUOTE] ++ line ",";
      line "";
      line "};";
      line "";
      line "";
      line "";
      line "pub fn build() void {}";
      line "" ].

(** The members of group [g] among the entries, in their order. *)
Definition members (g : text) (l : list text) : list text :=
  filter (λ e, startswith prefix e = true ∧ group_of e = g) l.

(** The block of the sample checkout, and that checkout once its build file
    has become the backup. *)
Definition sample_block : text := generated_of repo repo repo_fs.

Definition backed_up_fs : gmap path node :=
  <[backup_path_of repo := File old_build]> (delete (build_path_of repo) repo_fs).


(** ** Further sample inputs *)

(** Entries in any order, some of them outside the prefix. *)
Definition mixed_entries : list text :=
  [ txt "native/flecs/src/b/y.c"; txt "tests/t.c"; txt "native/flecs/src/a.c";
    txt "native/flecs/src/core/k.c"; txt "native/flecs/src/b/x.c" ].

(** [x in s] on [str]. *)
Fixpoint contains (x s : text) : bool :=
  orb (startswith x s)
      (match s with
       | [] => false
       | _ :: s' => contains x s'
       end).

(** A rendered line: no newline inside, and not the closing delimiter. *)
Definition inner_line (l : text) : Prop := (NL ∉ l) ∧ l ≠ txt "};".

(** The lines of a text, each with the newline that precedes it. *)
Definition with_newlines (ls : list text) : text := concat (map (cons NL) ls).

(** A wrapper around a block, and a block without its last newline. *)
Definition wrapper_head : text := line "// generated below" ++ [NL].
Definition wrapper_tail : text := line "pub fn build() void {}" ++ [NL].
Definition unterminated : text := txt "const src_files = [_][]const u8{" ++ [NL] ++ txt "};".

(** A checkout whose backup is left from an earlier run. *)
Definition stale_backup : text := line "// an older build script" ++ [NL].

Definition stale_world : world :=
  World (<[backup_path_of repo := File stale_backup]> repo_fs) [] no_faults.

(** A checkout whose build file is gone and whose backup is there. *)
Definition backup_only_world : world :=
  World (<[backup_path_of repo := File old_build]> (delete (build_path_of repo) repo_fs))
    [] no_faults.

(** The same with a backup that holds no block. *)
Definition plain_backup_world : world :=
  World (<[backup_path_of repo := File plain_build]> (delete (build_path_of repo) repo_fs))
    [] no_faults.

(** A tree in which [native/flecs/src] is a file. *)
Definition file_root_world : world :=
  World (list_to_map [ (src_root repo, File (txt "not a directory")) ]) [] no_faults.

Definition impossible_message (r : path) : text :=
  txt "Neither " ++ str (build_path_of r) ++ txt " nor "
  ++ str (backup_path_of r) ++ txt " exist; cannot apply".

(** A checkout in which the backup path is a directory. *)
Definition dir_backup_world : world :=
  World (<[backup_path_of repo := Dir]> repo_fs) [] no_faults.

(** One of the sources of the sample checkout. *)
Definition sample_source : path :=
  parts ["/"; "repo"; "native"; "flecs"; "src"; "b"; "x.c"]%string.

(** A disk that fails every write half way and deletes what it is asked to. *)
Definition flaky_disk : faults :=
  {| read_fault := λ _, None;
     write_fault := λ _ t, Some (Some (take 10 t), OSError);
     unlink_fault := λ _, None;
     replace_fault := λ _ _, None |}.

Definition flaky_disk_world : world := World repo_fs [] flaky_disk.

(** * Properties *)

(** ** The orders of [str] and of paths *)

Section LexFacts.
Context {A : Type} (cmp : A → A → comparison).

Hypothesis cmp_eq : ∀ x y, cmp x y = Eq ↔ x = y.
Hypothesis cmp_opp : ∀ x y, cmp y x = CompOpp (cmp x y).
Hypothesis cmp_lt_trans : ∀ x y z, cmp x y = Lt → cmp y z = Lt → cmp x z = Lt.

Lemma lex_compare_eq l1 l2 : lex_compare cmp l1 l2 = Eq ↔ l1 = l2.
Proof.
  revert l2; induction l1 as [|x l1 IH]; intros [|y l2]; simpl; try easy.
  destruct (cmp x y) eqn:E.
  - apply cmp_eq in E as ->. rewrite IH. split; congruence.
  - split; [easy|]. intros [= -> _]. pose proof (proj2 (cmp_eq y y) eq_refl). congruence.
  - split; [easy|]. intros [= -> _]. pose proof (proj2 (cmp_eq y y) eq_refl). congruence.
Qed.

Lemma lex_compare_opp l1 l2 : lex_compare cmp l2 l1 = CompOpp (lex_compare cmp l1 l2).
Proof.
  revert l2; induction l1 as [|x l1 IH]; intros [|y l2]; simpl; try easy.
  rewrite (cmp_opp x y). destruct (cmp x y); simpl; auto.
Qed.

Lemma lex_compare_lt_trans l1 l2 l3 :
  lex_compare cmp l1 l2 = Lt → lex_compare cmp l2 l3 = Lt → lex_compare cmp l1 l3 = Lt.
Proof.
  revert l2 l3; induction l1 as [|x l1 IH]; intros [|y l2] [|z l3]; simpl; try easy.
  destruct (cmp x y) eqn:Exy; try easy.
  - apply cmp_eq in Exy as ->. destruct (cmp y z); try easy. apply IH.
  - intros _. destruct (cmp y z) eqn:Eyz; try easy.
    + apply cmp_eq in Eyz as ->. now rewrite Exy.
    + now rewrite (cmp_lt_trans _ _ _ Exy Eyz).
Qed.

Lemma lex_leb_total l1 l2 : lex_leb cmp l1 l2 = true ∨ lex_leb cmp l2 l1 = true.
Proof.
  unfold lex_leb. rewrite (lex_compare_opp l1 l2).
  destruct (lex_compare cmp l1 l2); simpl; auto.
Qed.

Lemma lex_leb_antisym l1 l2 :
  lex_leb cmp l1 l2 = true → lex_leb cmp l2 l1 = true → l1 = l2.
Proof.
  unfold lex_leb. rewrite (lex_compare_opp l1 l2).
  destruct (lex_compare cmp l1 l2) eqn:E; simpl; try easy.
  intros _ _. now apply lex_compare_eq.
Qed.

Lemma lex_leb_trans l1 l2 l3 :
  lex_leb cmp l1 l2 = true → lex_leb cmp l2 l3 = true → lex_leb cmp l1 l3 = true.
Proof.
  unfold lex_leb.
  destruct (lex_compare cmp l1 l2) eqn:E12; try easy;
    destruct (lex_compare cmp l2 l3) eqn:E23; try easy; intros _ _.
  - apply lex_compare_eq in E12 as ->. now rewrite E23.
  - apply lex_compare_eq in E12 as ->. now rewrite E23.
  - apply lex_compare_eq in E23 as <-. now rewrite E12.
  - now rewrite (lex_compare_lt_trans _ _ _ E12 E23).
Qed.
End LexFacts.

Lemma N_compare_lt_trans x y z :
  N.compare x y = Lt → N.compare y z = Lt → N.compare x z = Lt.
Proof. rewrite !N.compare_lt_iff. lia. Qed.

Lemma text_compare_eq a b : text_compare a b = Eq ↔ a = b.
Proof. apply lex_compare_eq, N.compare_eq_iff. Qed.

Lemma text_compare_opp a b : text_compare b a = CompOpp (text_compare a b).
Proof.
  apply lex_compare_opp. intros x y. apply N.compare_antisym.
Qed.

Lemma text_compare_lt_trans a b c :
  text_compare a b = Lt → text_compare b c = Lt → text_compare a c = Lt.
Proof.
  apply lex_compare_lt_trans.
  - apply N.compare_eq_iff.
  - exact N_compare_lt_trans.
Qed.

Global Instance text_le_total : Total text_le.
Proof. intros a b. apply lex_leb_total. intros x y. apply N.compare_antisym. Qed.

Global Instance text_le_trans : Transitive text_le.
Proof.
  intros a b c. apply lex_leb_trans.
  - apply N.compare_eq_iff.
  - exact N_compare_lt_trans.
Qed.

Global Instance text_le_antisym : AntiSymm (=) text_le.
Proof.
  intros a b. apply lex_leb_antisym.
  - apply N.compare_eq_iff.
  - intros x y. apply N.compare_antisym.
Qed.

Global Instance path_le_total : Total path_le.
Proof. intros p q. apply lex_leb_total, text_compare_opp. Qed.

Global Instance path_le_trans : Transitive path_le.
Proof.
  intros p q r. apply lex_leb_trans.
  - apply text_compare_eq.
  - apply text_compare_lt_trans.
Qed.

Global Instance path_le_antisym : AntiSymm (=) path_le.
Proof.
  intros p q. apply lex_leb_antisym.
  - apply text_compare_eq.
  - apply text_compare_opp.
Qed.


(** ** Running the monad *)

Lemma bind_ok {A B} (m : M A) (k : A → M B) w a w' :
  m w = (Ok a, w') → (m ≫= k) w = k a w'.
Proof. intros H. unfold mbind, M_bind, bind. now rewrite H. Qed.

Lemma bind_raise {A B} (m : M A) (k : A → M B) w e w' :
  m w = (Raise e, w') → (m ≫= k) w = (Raise e, w').
Proof. intros H. unfold mbind, M_bind, bind. now rewrite H. Qed.

(** ** The renderer: the order of the entries does not matter *)

Lemma sorted_text_perm (l1 l2 : list text) : l1 ≡ₚ l2 → sorted_text l1 = sorted_text l2.
Proof.
  intros H. unfold sorted_text. apply (Sorted_unique text_le).
  - apply Sorted_merge_sort, _.
  - apply Sorted_merge_sort, _.
  - now rewrite !merge_sort_Permutation.
Qed.

Lemma sorted_paths_perm (l1 l2 : list path) : l1 ≡ₚ l2 → sorted_paths l1 = sorted_paths l2.
Proof.
  intros H. unfold sorted_paths. apply (Sorted_unique path_le).
  - apply Sorted_merge_sort, _.
  - apply Sorted_merge_sort, _.
  - now rewrite !merge_sort_Permutation.
Qed.

Lemma groups_get_setdefault g' g e G :
  groups_get g' (setdefault_append g e G) =
  if decide (g' = g) then Some (default [] (groups_get g G) ++ [e])
  else groups_get g' G.
Proof.
  induction G as [|[k v] G IH]; cbn [setdefault_append groups_get].
  - destruct (decide (g = g')), (decide (g' = g)); try congruence; reflexivity.
  - destruct (decide (k = g)) as [->|Hk]; cbn [groups_get].
    + destruct (decide (g = g')) as [<-|Hg].
      * rewrite decide_True by reflexivity. reflexivity.
      * rewrite decide_False by congruence. reflexivity.
    + destruct (decide (k = g')) as [->|Hk'].
      * rewrite decide_False by congruence. reflexivity.
      * exact IH.
Qed.

Lemma keys_setdefault g e G k :
  k ∈ keys (setdefault_append g e G) ↔ k = g ∨ k ∈ keys G.
Proof.
  unfold keys. induction G as [|[k0 v] G IH]; cbn [setdefault_append map fst].
  - rewrite elem_of_cons, elem_of_nil. cbn. tauto.
  - destruct (decide (k0 = g)) as [->|Hk]; cbn [map fst].
    + rewrite !elem_of_cons. cbn. tauto.
    + rewrite !elem_of_cons, IH. cbn. tauto.
Qed.

Lemma keys_setdefault_NoDup g e G :
  NoDup (keys G) → NoDup (keys (setdefault_append g e G)).
Proof.
  unfold keys. induction G as [|[k0 v] G IH]; cbn [setdefault_append map fst].
  - intros _. apply NoDup_singleton.
  - intros H. apply NoDup_cons in H as [Hk0 HG].
    destruct (decide (k0 = g)) as [->|Hk]; cbn [map fst].
    + apply NoDup_cons. auto.
    + apply NoDup_cons. split; [|auto].
      intros Hin. apply (keys_setdefault g e G k0) in Hin as [?|?]; auto.
Qed.

Lemma members_cons g e l :
  members g (e :: l) =
  if decide (startswith prefix e = true ∧ group_of e = g) then e :: members g l
  else members g l.
Proof. unfold members. now rewrite filter_cons. Qed.

Lemma fold_add_entry_get (l : list text) (acc : groups_t) (g : text) :
  default [] (groups_get g (fold_left add_entry l acc))
  = default [] (groups_get g acc) ++ members g l.
Proof.
  revert acc; induction l as [|e l IH]; intros acc; cbn [fold_left].
  - unfold members. now rewrite filter_nil, app_nil_r.
  - rewrite IH, members_cons. unfold add_entry.
    destruct (startswith prefix e) eqn:Ep; cbn [negb].
    + rewrite groups_get_setdefault.
      destruct (decide (g = group_of e)) as [->|Hg].
      * rewrite decide_True by auto. cbn [from_option id]. now rewrite <- app_assoc.
      * rewrite decide_False by (intros [_ ?]; congruence). reflexivity.
    + rewrite decide_False by (intros [? _]; congruence). reflexivity.
Qed.

Lemma fold_add_entry_keys (l : list text) (acc : groups_t) (g : text) :
  g ∈ keys (fold_left add_entry l acc) ↔ g ∈ keys acc ∨ members g l ≠ [].
Proof.
  revert acc; induction l as [|e l IH]; intros acc; cbn [fold_left].
  - unfold members. rewrite filter_nil. tauto.
  - rewrite IH, members_cons. unfold add_entry.
    destruct (startswith prefix e) eqn:Ep; cbn [negb].
    + rewrite keys_setdefault.
      destruct (decide (g = group_of e)) as [->|Hg].
      * rewrite decide_True by auto. split; [|auto]. intros _. right. discriminate.
      * rewrite decide_False by (intros [_ ?]; congruence). tauto.
    + rewrite decide_False by (intros [? _]; congruence). reflexivity.
Qed.

Lemma fold_add_entry_NoDup (l : list text) (acc : groups_t) :
  NoDup (keys acc) → NoDup (keys (fold_left add_entry l acc)).
Proof.
  revert acc; induction l as [|e l IH]; intros acc H; cbn [fold_left]; [exact H|].
  apply IH. unfold add_entry. destruct (negb (startswith prefix e)); [exact H|].
  now apply keys_setdefault_NoDup.
Qed.

Lemma members_perm g (l1 l2 : list text) : l1 ≡ₚ l2 → members g l1 ≡ₚ members g l2.
Proof. intros H. unfold members. now rewrite H. Qed.

Lemma keys_build_groups_perm (l1 l2 : list text) :
  l1 ≡ₚ l2 → keys (build_groups l1) ≡ₚ keys (build_groups l2).
Proof.
  intros H. unfold build_groups. apply NoDup_Permutation.
  - apply fold_add_entry_NoDup, NoDup_nil_2.
  - apply fold_add_entry_NoDup, NoDup_nil_2.
  - intros g. rewrite !fold_add_entry_keys.
    assert (Hm : members g l1 ≠ [] ↔ members g l2 ≠ []).
    { pose proof (members_perm g _ _ H) as Hp.
      split; intros Hne E; apply Hne.
      - rewrite E in Hp. now apply Permutation_nil_r in Hp.
      - rewrite E in Hp. symmetry in Hp. now apply Permutation_nil_r in Hp. }
    now rewrite Hm.
Qed.

Lemma ordered_groups_perm (l1 l2 : list text) :
  l1 ≡ₚ l2 → ordered_groups (build_groups l1) = ordered_groups (build_groups l2).
Proof.
  intros H. pose proof (keys_build_groups_perm _ _ H) as Hk.
  unfold ordered_groups. f_equal.
  - destruct (decide (core ∈ keys (build_groups l1))) as [H1|H1];
      destruct (decide (core ∈ keys (build_groups l2))) as [H2|H2]; try reflexivity.
    + rewrite Hk in H1. contradiction.
    + rewrite <- Hk in H2. contradiction.
  - apply sorted_text_perm. now rewrite Hk.
Qed.

Lemma group_lines_perm (l1 l2 : list text) (g : text) :
  l1 ≡ₚ l2 → group_lines (build_groups l1) g = group_lines (build_groups l2) g.
Proof.
  intros H. unfold group_lines, build_groups. rewrite !fold_add_entry_get.
  cbn [groups_get from_option id app]. f_equal. f_equal. f_equal.
  apply sorted_text_perm, members_perm, H.
Qed.

(** The block does not depend on the order of the entries. *)
Lemma format_zig_array_perm (l1 l2 : list text) :
  l1 ≡ₚ l2 → format_zig_array l1 = format_zig_array l2.
Proof.
  intros H. unfold format_zig_array. rewrite (ordered_groups_perm _ _ H).
  do 4 f_equal. apply map_ext. intros g. now apply group_lines_perm.
Qed.

(** ** The renderer: group ordering *)

(** C6. Group ordering: whatever the order in which the entries for [a.c],
    [b/x.c], [b/y.c] and [c/z.c] reach the renderer, the block lists the
    group [core] with [a.c] first, then the group [b] with [x.c] before
    [y.c], then the group [c]. *)
Theorem format_zig_array_group_ordering (entries : list text) :
  entries ≡ₚ four_files → format_zig_array entries = four_files_block.
Proof.
  intros HP. rewrite (format_zig_array_perm _ _ HP). vm_compute. reflexivity.
Qed.

Lemma format_zig_array_group_ordering_witness :
  format_zig_array
    [ txt "native/flecs/src/b/x.c"; txt "native/flecs/src/a.c";
      txt "native/flecs/src/b/y.c"; txt "native/flecs/src/c/z.c" ]
  = four_files_block.
Proof.
  apply format_zig_array_group_ordering.
  unfold four_files. apply perm_swap.
Defined.

(** ** The discoverer *)

Section Discoverer.

Variable REPO_ROOT : path.

(** Discovery reads the map and changes nothing. *)
Lemma find_c_files_run (root : path) (w : world) :
  find_c_files REPO_ROOT root w =
  match fs w !! root with
  | None => (Raise (SystemExit (txt "Source directory not found: " ++ str root)), w)
  | Some _ =>
      (Ok (map (entry_of REPO_ROOT) (sorted_paths (rglob_paths (txt ".c") root (fs w)))), w)
  end.
Proof.
  unfold find_c_files, mbind, M_bind, bind, exists_.
  destruct (fs w !! root) as [n|] eqn:E.
  - rewrite bool_decide_eq_true_2 by eauto. reflexivity.
  - rewrite bool_decide_eq_false_2 by (intros [? ?]; discriminate). reflexivity.
Qed.

Lemma rglob_paths_same_tree ext root m1 m2 :
  same_tree root m1 m2 → rglob_paths ext root m1 = rglob_paths ext root m2.
Proof.
  intros [Hr Hu]. unfold rglob_paths. rewrite Hr.
  destruct (m2 !! root) as [[|]|]; try reflexivity.
  f_equal. f_equal. apply map_eq. intros p.
  rewrite !map_lookup_filter.
  destruct (under root p) eqn:Eu.
  - rewrite (Hu p Eu). reflexivity.
  - assert (Hn : ∀ m : gmap path node,
               (m !! p ≫= λ x, guard (matches ext root (p, x)) ≫= λ _, Some x) = None).
    { intros m. destruct (m !! p) as [x|]; simpl; [|reflexivity].
      rewrite option_guard_False; [reflexivity|].
      unfold matches. simpl. rewrite Eu. simpl. auto. }
    rewrite !Hn. reflexivity.
Qed.

Lemma find_c_files_same_tree root w1 w2 :
  same_tree root (fs w1) (fs w2) →
  (find_c_files REPO_ROOT root w1).1 = (find_c_files REPO_ROOT root w2).1.
Proof.
  intros H. rewrite !find_c_files_run.
  rewrite (rglob_paths_same_tree _ _ _ _ H). destruct H as [-> _].
  destruct (fs w2 !! root); reflexivity.
Qed.

Lemma rglob_paths_spec ext root m p :
  p ∈ rglob_paths ext root m ↔
  m !! root = Some Dir ∧ is_Some (m !! p) ∧ under root p = true
  ∧ endswith ext (name p) = true.
Proof.
  unfold rglob_paths. destruct (m !! root) as [[|]|] eqn:Er.
  - rewrite elem_of_nil. split; [easy|]. intros [? _]. discriminate.
  - rewrite list_elem_of_fmap. split.
    + intros [[q n] [-> Hin]]. apply elem_of_map_to_list in Hin.
      apply map_lookup_filter_Some in Hin as [Hq HP]. simpl in *.
      unfold matches in HP. simpl in HP. apply andb_prop_elim in HP as [H1 H2].
      apply Is_true_true in H1, H2. eauto.
    + intros (_ & [n Hn] & H1 & H2). exists (p, n). split; [reflexivity|].
      apply elem_of_map_to_list, map_lookup_filter_Some. split; [assumption|].
      unfold matches. simpl. rewrite H1, H2. exact I.
  - rewrite elem_of_nil. split; [easy|]. intros [? _]. discriminate.
Qed.

Lemma rglob_paths_NoDup ext root m : NoDup (rglob_paths ext root m).
Proof.
  unfold rglob_paths. destruct (m !! root) as [[|]|]; try apply NoDup_nil_2.
  apply NoDup_fst_map_to_list.
Qed.

End Discoverer.

(** ** Facts about the [str] and path functions *)

Lemma startswith_spec p s : startswith p s = true ↔ ∃ r, s = p ++ r.
Proof.
  revert s; induction p as [|a p IH]; intros s; simpl.
  - split; eauto.
  - destruct s as [|b s].
    + split; [discriminate|]. intros [r Hr]. discriminate.
    + rewrite andb_true_iff, N.eqb_eq, IH. split.
      * intros [-> [r ->]]. eauto.
      * intros [r [= -> ->]]. eauto.
Qed.

Lemma endswith_spec ext n : endswith ext n = true ↔ ∃ stem, n = stem ++ ext.
Proof.
  unfold endswith. rewrite startswith_spec. split.
  - intros [r Hr]. exists (reverse r).
    apply (inj reverse). rewrite Hr, reverse_app, reverse_involutive. reflexivity.
  - intros [stem ->]. exists (reverse stem). apply reverse_app.
Qed.

Lemma strip_prefix_spec q p r : strip_prefix q p = Some r ↔ p = q ++ r.
Proof.
  revert p; induction q as [|a q IH]; intros p; simpl.
  - split; congruence.
  - destruct p as [|b p]; [split; discriminate|].
    destruct (decide (a = b)) as [->|Hne].
    + rewrite IH. split; congruence.
    + split; [discriminate|]. intros [= -> _]. congruence.
Qed.

Lemma strip_prefix_None q p : strip_prefix q p = None ↔ ∀ r, p ≠ q ++ r.
Proof.
  split.
  - intros H r Hr. apply strip_prefix_spec in Hr. congruence.
  - intros H. destruct (strip_prefix q p) as [r|] eqn:E; [|reflexivity].
    apply strip_prefix_spec in E. now destruct (H r).
Qed.

Lemma under_spec root p : under root p = true ↔ ∃ rel, rel ≠ [] ∧ p = root ++ rel.
Proof.
  unfold under. destruct (strip_prefix root p) as [[|x rel]|] eqn:E.
  - split; [discriminate|]. intros (rel & Hne & ->).
    apply strip_prefix_spec in E. apply (inj (app root)) in E. congruence.
  - apply strip_prefix_spec in E. split; [|reflexivity].
    intros _. exists (x :: rel). split; [discriminate|assumption].
  - split; [discriminate|]. intros (rel & _ & Hp).
    apply strip_prefix_spec in Hp. congruence.
Qed.

Lemma replace_char_not_in a b s : a ≠ b → a ∉ replace_char a b s.
Proof.
  intros Hab. unfold replace_char. rewrite list_elem_of_fmap.
  intros (c & Hc & _). destruct (N.eqb_spec c a); congruence.
Qed.

Lemma relative_to_nonempty (p other : path) :
  other ≠ [] → relative_to p other = strip_prefix other p.
Proof. destruct other; [congruence|reflexivity]. Qed.

(** ** The discoverer: what it returns *)

Section DiscovererClaims.

Variable REPO_ROOT : path.

(** Below the repository root an entry is the rest of the path. *)
Lemma entry_of_under (rel : path) :
  REPO_ROOT ≠ [] →
  entry_of REPO_ROOT (REPO_ROOT ++ rel) = replace_char BACKSLASH SLASH (str rel).
Proof.
  intros Hne. unfold entry_of. rewrite relative_to_nonempty by assumption.
  rewrite (proj2 (strip_prefix_spec REPO_ROOT (REPO_ROOT ++ rel) rel) eq_refl).
  reflexivity.
Qed.

(** Elsewhere it is the whole path: the [except] branch. *)
Lemma entry_of_outside (p : path) :
  REPO_ROOT ≠ [] → (∀ rel, p ≠ REPO_ROOT ++ rel) →
  entry_of REPO_ROOT p = replace_char BACKSLASH SLASH (str p).
Proof.
  intros Hne Hp. unfold entry_of. rewrite relative_to_nonempty by assumption.
  rewrite (proj2 (strip_prefix_None REPO_ROOT p) Hp). reflexivity.
Qed.

Lemma entry_of_no_backslash (p : path) : BACKSLASH ∉ entry_of REPO_ROOT p.
Proof. apply replace_char_not_in. discriminate. Qed.

(** What the discoverer returns.  For an existing source root it is one
    entry for each path below the root, at any depth, file or directory,
    whose name ends in [.c]; the entries follow the order of the paths
    before relativization, compared part by part; an entry is the path
    relative to the repository root of the script when the path lies below
    it and the unchanged path otherwise, with every backslash turned into a
    forward slash.  Nothing is written. *)
Theorem find_c_files_exact (root : path) (w : world) :
  is_Some (fs w !! root) →
  ∃ ps : list path,
    find_c_files REPO_ROOT root w = (Ok (map (entry_of REPO_ROOT) ps), w)
    ∧ Sorted path_le ps ∧ NoDup ps
    ∧ (∀ p, p ∈ ps ↔
         fs w !! root = Some Dir ∧ is_Some (fs w !! p)
         ∧ (∃ rel, rel ≠ [] ∧ p = root ++ rel)
         ∧ (∃ stem, name p = stem ++ txt ".c"))
    ∧ (∀ p, BACKSLASH ∉ entry_of REPO_ROOT p)
    ∧ (REPO_ROOT ≠ [] →
       ∀ p, (∀ rel, p = REPO_ROOT ++ rel →
               entry_of REPO_ROOT p = replace_char BACKSLASH SLASH (str rel))
            ∧ ((∀ rel, p ≠ REPO_ROOT ++ rel) →
               entry_of REPO_ROOT p = replace_char BACKSLASH SLASH (str p))).
Proof.
  intros [n Hn].
  exists (sorted_paths (rglob_paths (txt ".c") root (fs w))).
  split; [|split; [|split; [|split; [|split]]]].
  - rewrite find_c_files_run, Hn. reflexivity.
  - apply Sorted_merge_sort, _.
  - unfold sorted_paths. rewrite merge_sort_Permutation. apply rglob_paths_NoDup.
  - intros p. unfold sorted_paths. rewrite merge_sort_Permutation.
    rewrite rglob_paths_spec, under_spec, endswith_spec. reflexivity.
  - apply entry_of_no_backslash.
  - intros Hne p. split.
    + intros rel ->. now apply entry_of_under.
    + now apply entry_of_outside.
Qed.

End DiscovererClaims.

(** With the source root in [/other] and the script in [/repo], the entry
    for [a.c] is the absolute path [/other/native/flecs/src/a.c]; it is
    relative to no project root. *)
Lemma find_c_files_not_relative :
  ¬ entries_relative repo (src_root other) other_world.
Proof.
  intros H.
  destruct (H [txt "/other/native/flecs/src/a.c"] eq_refl
              (txt "/other/native/flecs/src/a.c"))
    as (project & rel & [n Hn] & Hu & Hne & Habs & He).
  { apply list_elem_of_here. }
  apply elem_of_list_to_map_2 in Hn.
  apply under_spec in Hu as (rel' & Hne' & Hrel).
  repeat (apply elem_of_cons in Hn as [Hn|Hn]); [| |now apply elem_of_nil in Hn].
  - injection Hn as Hp _. rewrite Hp in Hrel. vm_compute in Hrel.
    injection Hrel as <-. congruence.
  - injection Hn as Hp _. clear Hrel Hne' rel'.
    repeat (destruct project as [|? project];
            [cbn [app] in Hp; subst rel; vm_compute in He, Habs; discriminate|];
            cbn [app] in Hp; injection Hp as _ Hp).
    destruct project; [|discriminate]. cbn [app] in Hp. congruence.
Qed.

(** C4.  The entries are to be relative to the project root, as the
    comment in [find_c_files] has it: [native/flecs/src/...].  Run with
    [--root /other] by a script that is installed in [/repo], the discoverer
    returns for [/other/native/flecs/src/a.c] the absolute path itself,
    which is relative to no project root: it relativizes against the
    repository of the script, not against the root it is given.  The same
    tree gives [native/flecs/src/a.c] when it is the repository of the
    script. *)
Theorem find_c_files_absolute_entry :
  find_c_files repo (src_root other) other_world
  = (Ok [txt "/other/native/flecs/src/a.c"], other_world)
  ∧ ¬ entries_relative repo (src_root other) other_world
  ∧ find_c_files other (src_root other) other_world
    = (Ok [txt "native/flecs/src/a.c"], other_world).
Proof.
  split; [vm_compute; reflexivity|].
  split; [exact find_c_files_not_relative|].
  vm_compute. reflexivity.
Qed.

Lemma find_c_files_exact_witness :
  ∃ ps : list path,
    find_c_files repo (src_root repo) repo_world
    = (Ok (map (entry_of repo) ps), repo_world)
    ∧ Sorted path_le ps.
Proof.
  assert (H : is_Some (fs repo_world !! src_root repo)).
  { exists Dir. vm_compute. reflexivity. }
  destruct (find_c_files_exact repo (src_root repo) repo_world H)
    as (ps & H1 & H2 & _).
  exists ps. split; assumption.
Defined.

(** ** The orchestrator without [--apply] *)

Section DryRun.

Variable REPO_ROOT : path.

Lemma main_dry_run (r : path) (w : world) :
  main REPO_ROOT {| root := r; apply := false |} w =
  match fs w !! src_root r with
  | None =>
      (Raise (SystemExit (txt "Source directory not found: " ++ str (src_root r))), w)
  | Some _ =>
      (Ok tt,
       {| fs := fs w;
          stdout := stdout w ++
            [format_zig_array
               (map (entry_of REPO_ROOT)
                  (sorted_paths (rglob_paths (txt ".c") (src_root r) (fs w))))];
          io := io w |})
  end.
Proof.
  unfold main. simpl root. simpl apply.
  destruct (fs w !! src_root r) as [n|] eqn:E.
  - erewrite bind_ok; [|rewrite find_c_files_run, E; reflexivity].
    reflexivity.
  - erewrite bind_raise; [|rewrite find_c_files_run, E; reflexivity].
    reflexivity.
Qed.

(** C8. Missing-source fails closed: when the source root does not exist,
    the run ends with [SystemExit] and a message, hence with a non-zero
    status, and the world is the one it started from: nothing was written
    or printed. *)
Theorem missing_source_fails_closed (args : Args) (w : world) :
  fs w !! src_root (root args) = None →
  ∃ msg, main REPO_ROOT args w = (Raise (SystemExit msg), w)
         ∧ exit_status (main REPO_ROOT args w).1 ≠ 0%Z.
Proof.
  intros H.
  assert (Hm : main REPO_ROOT args w =
               (Raise (SystemExit (txt "Source directory not found: "
                                   ++ str (src_root (root args)))), w)).
  { unfold main. erewrite bind_raise; [reflexivity|].
    rewrite find_c_files_run, H. reflexivity. }
  eexists. split; [exact Hm|]. rewrite Hm. discriminate.
Qed.

(** C9. Rendering is deterministic: the block that a run prints is a
    function of the tree under the source root alone.  Two runs on worlds
    with the same tree there, such as two consecutive runs, end alike and
    print the same text, and neither changes the file system; and the block
    is the same in whatever order the traversal delivers the paths and the
    renderer receives the entries. *)
Theorem render_deterministic (r : path) (w1 w2 : world) :
  same_tree (src_root r) (fs w1) (fs w2) →
  (∃ res out,
     main REPO_ROOT {| root := r; apply := false |} w1
     = (res, {| fs := fs w1; stdout := stdout w1 ++ out; io := io w1 |})
     ∧ main REPO_ROOT {| root := r; apply := false |} w2
       = (res, {| fs := fs w2; stdout := stdout w2 ++ out; io := io w2 |}))
  ∧ (∀ entries,
       entries ≡ₚ map (entry_of REPO_ROOT) (rglob_paths (txt ".c") (src_root r) (fs w2)) →
       format_zig_array entries = generated_of REPO_ROOT r (fs w1)).
Proof.
  intros H. split.
  - rewrite !main_dry_run.
    rewrite (rglob_paths_same_tree _ _ _ _ H). destruct H as [Hr _]. rewrite Hr.
    destruct (fs w2 !! src_root r).
    + eexists _, [_]. split; reflexivity.
    + exists (Raise (SystemExit (txt "Source directory not found: " ++ str (src_root r)))), [].
      rewrite !app_nil_r. destruct w1, w2. split; reflexivity.
  - intros entries He. unfold generated_of.
    rewrite (rglob_paths_same_tree _ _ _ _ H).
    apply format_zig_array_perm. rewrite He.
    apply fmap_Permutation. unfold sorted_paths. now rewrite merge_sort_Permutation.
Qed.

End DryRun.

Lemma missing_source_fails_closed_witness :
  ∃ msg, main repo {| root := repo; apply := true |} empty_world
         = (Raise (SystemExit msg), empty_world)
         ∧ exit_status (main repo {| root := repo; apply := true |} empty_world).1 ≠ 0%Z.
Proof.
  apply (missing_source_fails_closed repo {| root := repo; apply := true |} empty_world).
  reflexivity.
Defined.

(** A second run, after the first one has printed its block. *)
Lemma render_deterministic_witness :
  ∃ res out,
    main repo {| root := repo; apply := false |} repo_world
    = (res, {| fs := repo_fs; stdout := [] ++ out; io := no_faults |})
    ∧ main repo {| root := repo; apply := false |}
        (World repo_fs [txt "earlier output"] no_faults)
      = (res, {| fs := repo_fs; stdout := [txt "earlier output"] ++ out;
                 io := no_faults |}).
Proof.
  apply (render_deterministic repo repo repo_world
           (World repo_fs [txt "earlier output"] no_faults)).
  split; [reflexivity|]. intros p _. reflexivity.
Defined.

(** ** Entries without the prefix *)

Lemma add_entry_skip groups e :
  startswith prefix e = false → add_entry groups e = groups.
Proof. intros H. unfold add_entry. now rewrite H. Qed.

Lemma build_groups_filter (entries : list text) (acc : groups_t) :
  fold_left add_entry entries acc
  = fold_left add_entry (filter (λ e, startswith prefix e = true) entries) acc.
Proof.
  revert acc; induction entries as [|e l IH]; intros acc; [reflexivity|].
  cbn [fold_left]. rewrite filter_cons.
  destruct (decide (startswith prefix e = true)) as [H|H].
  - cbn [fold_left]. apply IH.
  - rewrite add_entry_skip by now destruct (startswith prefix e). apply IH.
Qed.

(** An entry that lacks the prefix is dropped without a trace. *)
Lemma format_zig_array_filter (entries : list text) :
  format_zig_array entries
  = format_zig_array (filter (λ e, startswith prefix e = true) entries).
Proof.
  unfold format_zig_array, build_groups. now rewrite <- build_groups_filter.
Qed.

Lemma format_zig_array_no_prefix (entries : list text) :
  Forall (λ e, startswith prefix e = false) entries →
  format_zig_array entries = bare_block.
Proof.
  intros H. rewrite format_zig_array_filter.
  replace (filter _ entries) with (@nil text); [reflexivity|].
  symmetry. induction H as [|e l He _ IH]; [reflexivity|].
  rewrite filter_cons, decide_False by congruence. exact IH.
Qed.

Lemma str_absolute (p : path) :
  is_absolute p = true → ∃ t, str p = SLASH :: t.
Proof.
  destruct p as [|r segs]; [discriminate|]. simpl.
  destruct (bool_decide (r = txt "/")) eqn:E; [|discriminate].
  apply bool_decide_eq_true in E as ->. eauto.
Qed.

Lemma join_app_sep (sep : text) (xs ys : list text) :
  xs ≠ [] → ys ≠ [] → join sep (xs ++ ys) = join sep xs ++ sep ++ join sep ys.
Proof.
  intros Hx Hy. induction xs as [|a xs IH]; [congruence|].
  destruct xs as [|a' xs].
  - destruct ys; [congruence|]. reflexivity.
  - change (join sep ((a :: a' :: xs) ++ ys))
      with (a ++ sep ++ join sep ((a' :: xs) ++ ys)).
    rewrite IH by discriminate.
    change (join sep (a :: a' :: xs)) with (a ++ sep ++ join sep (a' :: xs)).
    now rewrite <- !app_assoc.
Qed.

(** The string of a path with further parts behind it. *)
Lemma str_app_sep (p rel : path) :
  p ≠ [] → p ≠ [txt "/"] → rel ≠ [] →
  str (p ++ rel) = str p ++ [SLASH] ++ join [SLASH] rel.
Proof.
  intros Hp Hroot Hrel. destruct p as [|a q]; [congruence|].
  cbn [app]. unfold str. destruct (bool_decide (a = txt "/")) eqn:E.
  - apply bool_decide_eq_true in E as ->.
    assert (q ≠ []) by (intros ->; congruence).
    rewrite join_app_sep by assumption. now rewrite <- !app_assoc.
  - change (a :: q ++ rel) with ((a :: q) ++ rel).
    now rewrite join_app_sep by (assumption || discriminate).
Qed.

Lemma startswith_app_long (p s x : text) :
  (length p ≤ length s)%nat → startswith p (s ++ x) = startswith p s.
Proof.
  revert s; induction p as [|a p IH]; intros s Hl; [reflexivity|].
  destruct s as [|b s]; [cbn [length] in Hl; lia|].
  cbn [app startswith]. rewrite IH by (cbn [length] in Hl; lia). reflexivity.
Qed.

Lemma replace_char_app a b s t :
  replace_char a b (s ++ t) = replace_char a b s ++ replace_char a b t.
Proof. unfold replace_char. apply map_app. Qed.

Lemma src_root_app (r : path) :
  src_root r = r ++ [txt "native"; txt "flecs"; txt "src"].
Proof. unfold src_root, div. now rewrite <- !app_assoc. Qed.

(** The source string ends with the prefix of the renderer. *)
Lemma source_string_suffix (r : path) : ∃ h, source_string r = h ++ prefix.
Proof.
  unfold source_string. rewrite src_root_app.
  destruct (decide (r = [])) as [->|Hne].
  { exists []. reflexivity. }
  destruct (decide (r = [txt "/"])) as [->|Hroot].
  { exists [SLASH]. reflexivity. }
  rewrite str_app_sep by (assumption || discriminate).
  rewrite replace_char_app.
  exists (replace_char BACKSLASH SLASH (str r) ++ [SLASH]).
  rewrite <- !app_assoc. reflexivity.
Qed.

Lemma source_string_length (r : path) :
  (length prefix ≤ length (source_string r))%nat.
Proof.
  destruct (source_string_suffix r) as [h ->]. rewrite length_app. lia.
Qed.

(** An absolute root: the source string starts with a slash. *)
Lemma source_string_absolute (r : path) :
  is_absolute r = true → startswith prefix (source_string r) = false.
Proof.
  intros Habs. unfold source_string.
  destruct (str_absolute (src_root r)) as [t Ht].
  { rewrite src_root_app. destruct r; [discriminate|exact Habs]. }
  rewrite Ht. reflexivity.
Qed.

Section OutsideRoot.

Variable REPO_ROOT : path.

(** Whether the entry of a path below the source root has the prefix: a
    relativized entry by what is left of the path, an entry kept whole by
    the source string. *)
Lemma entry_prefix_outside (r p : path) :
  REPO_ROOT ≠ [] → under (src_root r) p = true →
  startswith prefix (entry_of REPO_ROOT p)
  = match strip_prefix REPO_ROOT p with
    | Some rel => startswith prefix (replace_char BACKSLASH SLASH (str rel))
    | None => startswith prefix (source_string r)
    end.
Proof.
  intros Hne Hu. unfold entry_of. rewrite relative_to_nonempty by assumption.
  destruct (strip_prefix REPO_ROOT p) as [rel|]; [reflexivity|].
  apply under_spec in Hu as (rel & Hrel & ->).
  rewrite str_app_sep; [|rewrite src_root_app; now destruct r| |assumption].
  - rewrite !replace_char_app, app_assoc.
    change (replace_char BACKSLASH SLASH (str (src_root r))
            ++ replace_char BACKSLASH SLASH [SLASH]) with (source_string r).
    apply startswith_app_long, source_string_length.
  - rewrite src_root_app. destruct r as [|a [|b r]]; discriminate.
Qed.

(** A relativized entry of a root outside the repository, when the
    repository is not inside the source directory of the root: what is left
    of the path starts with [flecs] or [src]. *)
Lemma relativized_lacks_prefix (r rel rel' : path) :
  outside REPO_ROOT r →
  strip_prefix (src_root r) REPO_ROOT = None →
  rel ≠ [] → src_root r ++ rel = REPO_ROOT ++ rel' →
  startswith prefix (replace_char BACKSLASH SLASH (str rel')) = false.
Proof.
  intros Hout Hin Hrel E.
  symmetry in E. apply app_eq_inv in E as [(k & E1 & E2)|(k & E1 & E2)].
  - exfalso. apply (proj1 (strip_prefix_None _ _) Hin k). exact E1.
  - rewrite src_root_app in E1. symmetry in E1.
    apply app_eq_inv in E1 as [(k' & E3 & E4)|(k' & E3 & E4)].
    + destruct rel as [|x rel]; [congruence|].
      destruct k' as [|a [|b [|c [|d k']]]]; cbn [app] in E4.
      * exfalso. apply (Hout []). now rewrite E3, !app_nil_r.
      * injection E4 as _ <-. subst rel'. reflexivity.
      * injection E4 as _ _ <-. subst rel'. reflexivity.
      * injection E4 as <- <- <- _. exfalso.
        apply (proj1 (strip_prefix_None _ _) Hin []).
        now rewrite app_nil_r, src_root_app.
      * discriminate.
    + exfalso. apply (Hout k'). exact E3.
Qed.

(** C10, as amended.  The renderer drops every entry that lacks the prefix
    [native/flecs/src/].  The discoverer relativizes against the repository
    root of the script and keeps the whole path when that fails.  With a
    [--root] outside that repository the entries all lack the prefix exactly
    when the entries kept whole do, which is decided by the root alone, by
    the string of its source directory, and the relativized ones do, which
    is decided by what is left of the path; when they all lack it, the
    block holds the header, the helper entry, a blank line and the closing
    delimiter only.  They all lack it when the string of the source
    directory does not itself start with the prefix and the repository does
    not lie inside the source directory; the first is so for every absolute
    root. *)
Theorem outside_root_bare_block (r : path) (w : world) (l : list text) :
  outside REPO_ROOT r →
  (find_c_files REPO_ROOT (src_root r) w).1 = Ok l →
  (∀ entries, format_zig_array entries
              = format_zig_array (filter (λ e, startswith prefix e = true) entries))
  ∧ (Forall (λ e, startswith prefix e = false) l
     ↔ ∀ p, p ∈ rglob_paths (txt ".c") (src_root r) (fs w) →
         match strip_prefix REPO_ROOT p with
         | Some rel => startswith prefix (replace_char BACKSLASH SLASH (str rel))
         | None => startswith prefix (source_string r)
         end = false)
  ∧ (Forall (λ e, startswith prefix e = false) l →
     format_zig_array l = bare_block
     ∧ main REPO_ROOT {| root := r; apply := false |} w
       = (Ok tt, {| fs := fs w; stdout := stdout w ++ [bare_block]; io := io w |}))
  ∧ (startswith prefix (source_string r) = false →
     strip_prefix (src_root r) REPO_ROOT = None →
     Forall (λ e, startswith prefix e = false) l)
  ∧ (is_absolute r = true → startswith prefix (source_string r) = false).
Proof.
  intros Hout Hl.
  assert (Hne : REPO_ROOT ≠ []).
  { intros E. apply (Hout r). now rewrite E. }
  rewrite find_c_files_run in Hl. rewrite main_dry_run.
  destruct (fs w !! src_root r) as [n|]; [|discriminate].
  cbn [fst] in Hl. injection Hl as <-.
  assert (Hiff : Forall (λ e, startswith prefix e = false)
                   (map (entry_of REPO_ROOT)
                      (sorted_paths (rglob_paths (txt ".c") (src_root r) (fs w))))
                 ↔ ∀ p, p ∈ rglob_paths (txt ".c") (src_root r) (fs w) →
                     match strip_prefix REPO_ROOT p with
                     | Some rel =>
                         startswith prefix (replace_char BACKSLASH SLASH (str rel))
                     | None => startswith prefix (source_string r)
                     end = false).
  { rewrite Forall_forall. split.
    - intros H p Hp.
      rewrite <- (entry_prefix_outside r p Hne)
        by (now apply rglob_paths_spec in Hp as (_ & _ & Hu & _)).
      apply H. apply list_elem_of_fmap. exists p. split; [reflexivity|].
      unfold sorted_paths. now rewrite merge_sort_Permutation.
    - intros H e He. apply list_elem_of_fmap in He as (p & -> & Hp).
      unfold sorted_paths in Hp. rewrite merge_sort_Permutation in Hp.
      rewrite (entry_prefix_outside r p Hne)
        by (now apply rglob_paths_spec in Hp as (_ & _ & Hu & _)).
      now apply H. }
  split; [apply format_zig_array_filter|].
  split; [exact Hiff|].
  split; [|split].
  - intros HF. rewrite (format_zig_array_no_prefix _ HF). split; reflexivity.
  - intros Hkeep Hin. apply Hiff. intros p Hp.
    destruct (strip_prefix REPO_ROOT p) as [rel'|] eqn:E; [|exact Hkeep].
    apply strip_prefix_spec in E.
    apply rglob_paths_spec in Hp as (_ & _ & Hu & _).
    apply under_spec in Hu as (rel & Hrel & Hp).
    apply (relativized_lacks_prefix r rel rel' Hout Hin Hrel). congruence.
  - apply source_string_absolute.
Qed.

End OutsideRoot.

(** C10, as stated, fails: run with [--root .] from a directory outside
    [/repo], the tool finds [native/flecs/src/a.c], cannot relativize it
    against [/repo], keeps it as it is, and it has the prefix. *)
Lemma outside_root_keeps_prefix : ¬ outside_renders_bare repo [] cwd_world.
Proof.
  intros H.
  destruct (H (λ rel E, ltac:(discriminate E))
              [txt "native/flecs/src/a.c"] eq_refl) as [HF _].
  apply Forall_inv in HF. vm_compute in HF. discriminate.
Qed.

(** With the absolute root [/other], and with the relative root [other],
    the one entry lacks the prefix and the block is the bare one. *)
Lemma outside_root_bare_block_witness :
  (Forall (λ e, startswith prefix e = false) [txt "/other/native/flecs/src/a.c"]
   ∧ format_zig_array [txt "/other/native/flecs/src/a.c"] = bare_block)
  ∧ (Forall (λ e, startswith prefix e = false) [txt "other/native/flecs/src/a.c"]
     ∧ format_zig_array [txt "other/native/flecs/src/a.c"] = bare_block).
Proof.
  split.
  - destruct (outside_root_bare_block repo other other_world
                [txt "/other/native/flecs/src/a.c"]) as (_ & _ & H3 & H4 & H5).
    + intros rel E. injection E as _ E _. discriminate E.
    + reflexivity.
    + assert (HF := H4 (H5 eq_refl) eq_refl). split; [exact HF|apply (H3 HF)].
  - destruct (outside_root_bare_block repo elsewhere elsewhere_world
                [txt "other/native/flecs/src/a.c"]) as (_ & _ & H3 & H4 & _).
    + intros rel E. injection E as E _. discriminate E.
    + reflexivity.
    + assert (HF := H4 eq_refl eq_refl). split; [exact HF|apply (H3 HF)].
Defined.

(** ** The matcher and the pattern *)

Lemma spec_nil : spec_by [] (λ m, m = []).
Proof.
  intros s n. simpl. split.
  - intros [= <-]. exists [], s. auto.
  - intros (m & rest & -> & <- & ->). reflexivity.
Qed.

Lemma match_here_lit c r x s :
  match_here (lit c :: r) (x :: s) = if c =? x then S <$> match_here r s else None.
Proof. reflexivity. Qed.

Lemma match_here_lit_nil c r : match_here (lit c :: r) [] = None.
Proof. reflexivity. Qed.

Lemma spec_lits (t : text) r L :
  spec_by r L → spec_by (map lit t ++ r) (λ m, ∃ m', m = t ++ m' ∧ L m').
Proof.
  intros Hr. induction t as [|c t IH]; intros s n.
  - cbn [map app]. rewrite (Hr s n). split.
    + intros (m & rest & -> & <- & Hm). exists m, rest. eauto.
    + intros (m & rest & -> & <- & m' & -> & Hm). exists m', rest. eauto.
  - cbn [map app]. destruct s as [|x s].
    + rewrite match_here_lit_nil. split; [discriminate|].
      intros (m & rest & Hs & _ & m' & -> & _). discriminate.
    + rewrite match_here_lit. destruct (N.eqb_spec c x) as [->|Hne].
      * split.
        -- destruct (match_here (map lit t ++ r) s) as [n0|] eqn:E; [|discriminate].
           intros [= <-]. apply IH in E as (m & rest & -> & <- & m' & -> & Hm).
           exists (x :: t ++ m'), rest. split; [reflexivity|]. split; [reflexivity|].
           exists m'. auto.
        -- intros (m & rest & Hs & <- & m' & -> & Hm).
           injection Hs as ->.
           rewrite (proj2 (IH ((t ++ m') ++ rest) (length (t ++ m')))).
           ++ reflexivity.
           ++ exists (t ++ m'), rest. eauto.
      * split; [discriminate|].
        intros (m & rest & Hs & _ & m' & -> & _). injection Hs as ->. congruence.
Qed.

Lemma any_char_true x : any_char x = true.
Proof. unfold any_char. destruct (is_space x); reflexivity. Qed.

Lemma greedy_sound c k s n :
  greedy c k s = Some n →
  ∃ ws s' n', s = ws ++ s' ∧ Forall (λ x, c x = true) ws ∧ k s' = Some n'
              ∧ n = (length ws + n')%nat.
Proof.
  revert n; induction s as [|x s IH]; intros n; cbn [greedy].
  - intros H. exists [], [], n. auto.
  - destruct (c x) eqn:Ec.
    + destruct (greedy c k s) as [n0|] eqn:E.
      * intros [= <-]. destruct (IH n0 eq_refl) as (ws & s' & n' & -> & Hws & Hk & ->).
        exists (x :: ws), s', n'. repeat split; auto.
      * intros H. exists [], (x :: s), n. auto.
    + intros H. exists [], (x :: s), n. auto.
Qed.

Lemma greedy_complete c k ws s' n' :
  Forall (λ x, c x = true) ws → k s' = Some n' →
  (∀ x t, s' = x :: t → c x = false) →
  greedy c k (ws ++ s') = Some (length ws + n')%nat.
Proof.
  intros Hws Hk Hhead. induction Hws as [|x ws Hx _ IH]; cbn [app length].
  - destruct s' as [|x t]; cbn [greedy]; [exact Hk|].
    rewrite (Hhead x t eq_refl). exact Hk.
  - cbn [greedy]. rewrite Hx, IH. reflexivity.
Qed.

Lemma spec_starG r L :
  spec_by r L → solid L →
  spec_by (StarG is_space :: r)
    (λ m, ∃ ws m', spaces ws ∧ L m' ∧ m = ws ++ m').
Proof.
  intros Hr Hs s n. cbn [match_here]. split.
  - intros H. apply greedy_sound in H as (ws & s' & n' & -> & Hws & Hk & ->).
    apply Hr in Hk as (m & rest & -> & <- & Hm).
    exists (ws ++ m), rest. rewrite <- app_assoc, length_app. eauto 10.
  - intros (m & rest & -> & <- & ws & m' & Hws & Hm & ->).
    rewrite <- app_assoc, length_app. apply greedy_complete; [exact Hws| |].
    + apply Hr. eauto.
    + intros x t E. destruct (Hs _ Hm) as (y & m'' & -> & Hy).
      injection E as <- _. exact Hy.
Qed.

Lemma spec_plusG r L :
  spec_by r L → solid L →
  spec_by (PlusG is_space :: r)
    (λ m, ∃ ws m', spaces ws ∧ ws ≠ [] ∧ L m' ∧ m = ws ++ m').
Proof.
  intros Hr Hs s n. cbn [match_here]. split.
  - destruct s as [|x s]; [discriminate|].
    destruct (is_space x) eqn:Ex; [|discriminate].
    destruct (greedy is_space (match_here r) s) as [n0|] eqn:E; [|discriminate].
    intros [= <-].
    apply greedy_sound in E as (ws & s' & n' & -> & Hws & Hk & ->).
    apply Hr in Hk as (m & rest & -> & <- & Hm).
    exists (x :: ws ++ m), rest. split; [cbn [app]; now rewrite app_assoc|].
    split; [cbn [length]; now rewrite !length_app|].
    exists (x :: ws), m. repeat split; auto. constructor; auto.
  - intros (m & rest & -> & <- & ws & m' & Hws & Hne & Hm & ->).
    destruct Hws as [|x ws Hx Hws]; [congruence|].
    cbn [app]. rewrite Hx.
    rewrite <- app_assoc, (greedy_complete is_space _ ws (m' ++ rest) (length m')).
    + cbn. now rewrite length_app.
    + exact Hws.
    + apply Hr. eauto.
    + intros y t E. destruct (Hs _ Hm) as (z & m'' & -> & Hz).
      injection E as <- _. exact Hz.
Qed.

Lemma lazy_sound k s n :
  lazy any_char k s = Some n →
  ∃ body s' n', s = body ++ s' ∧ k s' = Some n' ∧ n = (length body + n')%nat
    ∧ ∀ b1 b2, body = b1 ++ b2 → b2 ≠ [] → k (b2 ++ s') = None.
Proof.
  revert n; induction s as [|x s IH]; intros n; cbn [lazy].
  - destruct (k []) as [n0|] eqn:E; [|discriminate]. intros [= <-].
    exists [], [], n0. repeat split; auto.
    intros [|] [|]; intros; simplify_eq.
  - destruct (k (x :: s)) as [n0|] eqn:E.
    + intros [= <-]. exists [], (x :: s), n0. repeat split; auto.
      intros [|] [|]; intros; simplify_eq.
    + rewrite any_char_true.
      destruct (lazy any_char k s) as [n0|] eqn:El; [|discriminate].
      intros [= <-]. destruct (IH n0 eq_refl) as (body & s' & n' & -> & Hk & -> & Hmin).
      exists (x :: body), s', n'. repeat split; auto.
      intros [|y b1] b2 Hb Hne.
      * cbn [app] in Hb. subst b2. exact E.
      * injection Hb as -> ->. eapply Hmin; eauto.
Qed.

Lemma lazy_complete k body s' n' :
  k s' = Some n' →
  (∀ b1 b2, body = b1 ++ b2 → b2 ≠ [] → k (b2 ++ s') = None) →
  lazy any_char k (body ++ s') = Some (length body + n')%nat.
Proof.
  intros Hk. induction body as [|x body IH]; intros Hmin; cbn [app length].
  - destruct s'; cbn [lazy]; now rewrite Hk.
  - cbn [lazy].
    pose proof (Hmin [] (x :: body) eq_refl ltac:(discriminate)) as H0.
    cbn [app] in H0. rewrite H0.
    rewrite any_char_true, IH; [reflexivity|].
    intros b1 b2 -> Hne. apply (Hmin (x :: b1) b2); auto.
Qed.

Lemma spec_closing : spec_by (map lit CLOSING) (λ m, m = CLOSING).
Proof.
  intros s n. rewrite <- (app_nil_r (map lit CLOSING)).
  rewrite (spec_lits CLOSING [] _ spec_nil s n). split.
  - intros (m & rest & -> & <- & m' & -> & ->). rewrite app_nil_r. eauto.
  - intros (m & rest & -> & <- & ->). exists CLOSING, rest.
    repeat split; auto. exists []. now rewrite app_nil_r.
Qed.

Lemma closing_window (b2 rest rest' : text) :
  b2 ≠ [] → b2 ++ CLOSING ++ rest = CLOSING ++ rest' →
  ∃ d, d ≠ [] ∧ b2 ++ CLOSING = CLOSING ++ d.
Proof.
  intros Hne E. exists (drop 4 (b2 ++ CLOSING)). split.
  - intros Hd. apply (f_equal length) in Hd. rewrite length_drop, length_app in Hd.
    destruct b2; [congruence|]. cbn in Hd. lia.
  - rewrite <- (take_drop 4 (b2 ++ CLOSING)) at 1. f_equal.
    apply (f_equal (take 4)) in E. rewrite app_assoc in E.
    rewrite take_app_le in E by (rewrite length_app; cbn; lia).
    exact E.
Qed.

Lemma spec_lazy_closing :
  spec_by (StarL any_char :: map lit CLOSING)
    (λ m, ∃ body, first_closing body ∧ m = body ++ CLOSING).
Proof.
  intros s n. cbn [match_here]. split.
  - intros H. apply lazy_sound in H as (body & s' & n' & -> & Hk & -> & Hmin).
    apply spec_closing in Hk as (m & rest & -> & <- & ->).
    exists (body ++ CLOSING), rest. rewrite <- app_assoc, length_app.
    repeat split; auto. exists body. split; [|reflexivity].
    intros b1 b2 E. destruct b2 as [|y b2]; [reflexivity|exfalso].
    apply app_eq_inv in E as [(k & Hb & Hk)|(k & Hb & Hk)].
    + destruct k as [|z k].
      * rewrite app_nil_r in Hb. subst b1. cbn [app] in Hk.
        apply (f_equal length) in Hk. rewrite length_app in Hk. cbn in Hk. lia.
      * assert (Hn : match_here (map lit CLOSING) ((z :: k) ++ CLOSING ++ rest) = None)
          by (apply (Hmin b1); [assumption|discriminate]).
        assert (Hs : match_here (map lit CLOSING) ((z :: k) ++ CLOSING ++ rest)
                     = Some (length CLOSING)).
        { apply spec_closing. exists CLOSING, ((y :: b2) ++ rest).
          repeat split; auto. rewrite app_assoc, <- Hk, <- app_assoc. reflexivity. }
        congruence.
    + apply (f_equal length) in Hk. rewrite !length_app in Hk. cbn in Hk. lia.
  - intros (m & rest & -> & <- & body & Hfirst & ->).
    rewrite <- app_assoc, length_app. apply lazy_complete.
    + apply spec_closing. eauto.
    + intros b1 b2 -> Hne.
      destruct (match_here (map lit CLOSING) (b2 ++ CLOSING ++ rest)) as [n0|] eqn:E;
        [exfalso|reflexivity].
      apply spec_closing in E as (m & rest' & E & _ & ->).
      apply closing_window in E as (d & Hd & E); [|assumption].
      apply Hd, (Hfirst b1). rewrite <- !app_assoc, E. reflexivity.
Qed.

Lemma solid_lits (t : text) (L : text → Prop) c t' :
  t = c :: t' → is_space c = false → solid (λ m, ∃ m', m = t ++ m' ∧ L m').
Proof. intros -> Hc m (m' & -> & _). eauto. Qed.

Lemma PATTERN_unfold :
  PATTERN =
  map lit (txt "const") ++ PlusG is_space ::
  (map lit (txt "src_files") ++ StarG is_space ::
   (map lit (txt "=") ++ StarG is_space ::
    (map lit (txt "[_][]const") ++ PlusG is_space ::
     (map lit (txt "u8{") ++ StarL any_char :: map lit CLOSING)))).
Proof. reflexivity. Qed.

Lemma match_here_block (s : text) (n : nat) :
  match_here PATTERN s = Some n ↔ ∃ m rest, s = m ++ rest ∧ length m = n ∧ is_block m.
Proof.
  rewrite PATTERN_unfold.
  pose proof spec_lazy_closing as S5.
  pose proof (spec_lits (txt "u8{") _ _ S5) as S4.
  pose proof (spec_plusG _ _ S4 (solid_lits (txt "u8{") _ 117 _ eq_refl eq_refl)) as S3.
  pose proof (spec_lits (txt "[_][]const") _ _ S3) as S3'.
  pose proof (spec_starG _ _ S3' (solid_lits (txt "[_][]const") _ 91 _ eq_refl eq_refl)) as S2.
  pose proof (spec_lits (txt "=") _ _ S2) as S2'.
  pose proof (spec_starG _ _ S2' (solid_lits (txt "=") _ 61 _ eq_refl eq_refl)) as S1.
  pose proof (spec_lits (txt "src_files") _ _ S1) as S1'.
  pose proof (spec_plusG _ _ S1' (solid_lits (txt "src_files") _ 115 _ eq_refl eq_refl)) as S0.
  pose proof (spec_lits (txt "const") _ _ S0) as S.
  rewrite (S s n). clear.
  split.
  - intros (m & rest & -> & <- & m0 & -> & w1 & m1 & Hw1 & Hn1 & (m2 & -> & w2 & m3 & Hw2
            & (m4 & -> & w3 & m5 & Hw3 & (m6 & -> & w4 & m7 & Hw4 & Hn4
            & (m8 & -> & body & Hb & ->) & ->) & ->) & ->) & ->).
    eexists _, rest. split; [reflexivity|]. split; [reflexivity|].
    exists w1, w2, w3, w4, body. repeat split; auto.
  - intros (m & rest & -> & <- & w1 & w2 & w3 & w4 & body
            & Hw1 & Hn1 & Hw2 & Hw3 & Hw4 & Hn4 & Hb & ->).
    eexists _, rest. split; [reflexivity|]. split; [reflexivity|].
    eexists. split; [reflexivity|].
    exists w1. eexists. split; [exact Hw1|]. split; [exact Hn1|]. split; [|reflexivity].
    eexists. split; [reflexivity|].
    exists w2. eexists. split; [exact Hw2|]. split; [|reflexivity].
    eexists. split; [reflexivity|].
    exists w3. eexists. split; [exact Hw3|]. split; [|reflexivity].
    eexists. split; [reflexivity|].
    exists w4. eexists. split; [exact Hw4|]. split; [exact Hn4|]. split; [|reflexivity].
    eexists. split; [reflexivity|].
    exists body. split; [exact Hb|reflexivity].
Qed.

Lemma starts_block_match (s : text) :
  starts_block s ↔ ∃ n, match_here PATTERN s = Some n.
Proof.
  split.
  - intros (m & rest & -> & Hm). exists (length m). apply match_here_block. eauto.
  - intros [n H]. apply match_here_block in H as (m & rest & -> & _ & Hm).
    exists m, rest. auto.
Qed.

Lemma not_starts_block_match (s : text) :
  ¬ starts_block s ↔ match_here PATTERN s = None.
Proof.
  rewrite starts_block_match. destruct (match_here PATTERN s); split; eauto; try easy.
  - intros H. destruct H. eauto.
  - intros _ [n Hn]. discriminate.
Qed.

Lemma is_block_length (m : text) : is_block m → m ≠ [].
Proof.
  intros (w1 & w2 & w3 & w4 & body & _ & _ & _ & _ & _ & _ & _ & ->). discriminate.
Qed.

Lemma PATTERN_not_empty (s : text) : match_here PATTERN s ≠ Some 0%nat.
Proof.
  intros H. apply match_here_block in H as (m & rest & _ & Hl & Hm).
  apply is_block_length in Hm. destruct m; [congruence|discriminate].
Qed.

Section Scan.
Variable repl : text.
Abbreviation scan s := (subn_scan PATTERN repl s 0).

Lemma scan_skip (a s : text) :
  subn_scan PATTERN repl (a ++ s) (length a) = scan s.
Proof.
  induction a as [|x a IH]; [reflexivity|]. cbn [app length subn_scan]. exact IH.
Qed.

Lemma scan_block (m rest : text) :
  is_block m → scan (m ++ rest) = (repl ++ (scan rest).1, S (scan rest).2).
Proof.
  intros Hm.
  assert (H : match_here PATTERN (m ++ rest) = Some (length m))
    by (apply match_here_block; eauto).
  destruct m as [|x m]; [now apply is_block_length in Hm|].
  cbn [app length] in *. cbn [subn_scan]. rewrite H, scan_skip.
  destruct (scan rest). reflexivity.
Qed.

Lemma scan_no_block (x : N) (s : text) :
  ¬ starts_block (x :: s) → scan (x :: s) = (x :: (scan s).1, (scan s).2).
Proof.
  intros H. apply not_starts_block_match in H.
  cbn [subn_scan]. rewrite H. destruct (scan s). reflexivity.
Qed.

Lemma scan_pre (pre s : text) :
  (∀ p1 p2, pre = p1 ++ p2 → p2 ≠ [] → ¬ starts_block (p2 ++ s)) →
  scan (pre ++ s) = (pre ++ (scan s).1, (scan s).2).
Proof.
  induction pre as [|x pre IH]; intros H.
  - cbn [app]. destruct (scan s). reflexivity.
  - cbn [app]. rewrite scan_no_block.
    + rewrite IH; [reflexivity|]. intros p1 p2 -> Hne. apply (H (x :: p1) p2); auto.
    + apply (H [] (x :: pre)); [reflexivity|discriminate].
Qed.

Lemma scan_count_zero (s : text) : (scan s).2 = 0%nat ↔ ¬ has_block s.
Proof.
  induction s as [|x s IH].
  - split; [|reflexivity]. intros _ (pre & rest & E & Hs).
    symmetry in E. apply app_eq_nil in E as [_ ->].
    apply starts_block_match in Hs as [n Hn]. discriminate.
  - destruct (match_here PATTERN (x :: s)) as [n|] eqn:E.
    + assert (Hs : starts_block (x :: s)) by (apply starts_block_match; eauto).
      destruct Hs as (m & rest & Hx & Hm). rewrite Hx, scan_block by assumption.
      split; [discriminate|]. intros H. destruct H. exists [], (m ++ rest).
      split; [reflexivity|]. exists m, rest. auto.
    + apply not_starts_block_match in E. rewrite scan_no_block by assumption.
      cbn [snd]. rewrite IH. split.
      * intros H (pre & rest & Hx & Hs). destruct pre as [|y pre].
        -- cbn [app] in Hx. subst rest. contradiction.
        -- injection Hx as -> ->. apply H. exists pre, rest. auto.
      * intros H (pre & rest & -> & Hs). apply H. exists (x :: pre), rest. auto.
Qed.

Lemma scan_zero_id (s : text) : (scan s).2 = 0%nat → (scan s).1 = s.
Proof.
  induction s as [|x s IH]; [reflexivity|].
  destruct (match_here PATTERN (x :: s)) as [n|] eqn:E.
  - assert (Hs : starts_block (x :: s)) by (apply starts_block_match; eauto).
    destruct Hs as (m & rest & Hx & Hm). rewrite Hx, scan_block by assumption.
    discriminate.
  - apply not_starts_block_match in E. rewrite scan_no_block by assumption.
    cbn [fst snd]. intros H. now rewrite IH.
Qed.
End Scan.

Lemma compile_template_literal (repl : text) :
  BACKSLASH ∉ repl → compile_template repl = Some repl.
Proof. intros H. unfold compile_template. now rewrite bool_decide_eq_false_2. Qed.

Lemma replace_block_scan (s blk : text) :
  BACKSLASH ∉ blk →
  replace_block s blk =
  if ((subn_scan PATTERN (blk ++ [NL; NL]) s 0).2 =? 0)%nat then Raise NOT_FOUND
  else Ok (subn_scan PATTERN (blk ++ [NL; NL]) s 0).1.
Proof.
  intros H. unfold replace_block, subn.
  rewrite compile_template_literal.
  - destruct (subn_scan PATTERN (blk ++ [NL; NL]) s 0). reflexivity.
  - rewrite elem_of_app. intros [?|Hin]; [contradiction|].
    apply list_elem_of_In in Hin. cbn in Hin. intuition discriminate.
Qed.

Lemma replace_block_not_found (s blk : text) :
  BACKSLASH ∉ blk → (replace_block s blk = Raise NOT_FOUND ↔ ¬ has_block s).
Proof.
  intros H. rewrite replace_block_scan by assumption.
  rewrite <- (scan_count_zero (blk ++ [NL; NL])).
  destruct (Nat.eqb_spec (subn_scan PATTERN (blk ++ [NL; NL]) s 0).2 0); split; auto; try easy.
Qed.

Lemma replace_block_found (s blk : text) :
  BACKSLASH ∉ blk → has_block s → ∃ out, replace_block s blk = Ok out.
Proof.
  intros H Hb. rewrite replace_block_scan by assumption.
  destruct (Nat.eqb_spec (subn_scan PATTERN (blk ++ [NL; NL]) s 0).2 0) as [E|E]; eauto.
  apply scan_count_zero in E. contradiction.
Qed.

Lemma replace_block_leftmost (pre m post blk : text) :
  BACKSLASH ∉ blk → leftmost pre m post →
  replace_block (pre ++ m ++ post) blk =
  Ok (pre ++ blk ++ [NL; NL] ++
      match replace_block post blk with Ok post' => post' | Raise _ => post end).
Proof.
  intros H [Hm Hpre]. rewrite !replace_block_scan by assumption.
  rewrite scan_pre by assumption. rewrite scan_block by assumption. cbn [fst snd].
  rewrite <- app_assoc.
  destruct (Nat.eqb_spec (subn_scan PATTERN (blk ++ [NL; NL]) post 0).2 0) as [E|E].
  - now rewrite scan_zero_id.
  - reflexivity.
Qed.

Lemma has_block_leftmost (s : text) :
  has_block s → ∃ pre m post, s = pre ++ m ++ post ∧ leftmost pre m post.
Proof.
  induction s as [|x s IH]; intros Hb.
  - destruct Hb as (pre & rest & E & Hs). symmetry in E.
    apply app_eq_nil in E as [_ ->].
    apply starts_block_match in Hs as [n Hn]. discriminate.
  - destruct (match_here PATTERN (x :: s)) as [n|] eqn:E.
    + assert (Hs : starts_block (x :: s)) by (apply starts_block_match; eauto).
      destruct Hs as (m & rest & Hx & Hm). exists [], m, rest.
      split; [exact Hx|]. split; [exact Hm|].
      intros p1 p2 Hp Hne. symmetry in Hp. apply app_eq_nil in Hp as [_ ->]. congruence.
    + apply not_starts_block_match in E.
      destruct IH as (pre & m & post & -> & Hm & Hpre).
      { destruct Hb as (pre & rest & Hx & Hs). destruct pre as [|y pre].
        - cbn [app] in Hx. subst rest. contradiction.
        - injection Hx as -> ->. exists pre, rest. auto. }
      exists (x :: pre), m, post. split; [reflexivity|]. split; [exact Hm|].
      intros [|y p1] p2 Hp Hne.
      * cbn [app] in Hp. subst p2. exact E.
      * injection Hp as -> ->. eapply Hpre; eauto.
Qed.

Lemma is_block_of_match (m : text) :
  match_here PATTERN m = Some (length m) → is_block m.
Proof.
  intros H. apply match_here_block in H as (m' & rest & E & Hl & Hm).
  assert (rest = []) as ->.
  { apply (f_equal length) in E. rewrite length_app in E.
    destruct rest; [reflexivity|]. cbn [length] in E. lia. }
  rewrite app_nil_r in E. now subst.
Qed.

(** ** The patcher *)

(** C2, as amended.  The patcher fails with the pattern-not-found error
    exactly when the text holds no match of the pattern, and never because
    it holds more than one: the leftmost match is replaced by the rendered
    block and a blank separator line, the text before it is kept, and the
    text behind it is patched in the same way; with no further match behind
    it, that text is kept too. *)
Theorem replace_block_every_match (s blk : text) :
  BACKSLASH ∉ blk →
  (replace_block s blk = Raise NOT_FOUND ↔ ¬ has_block s)
  ∧ (has_block s →
     (∃ out, replace_block s blk = Ok out)
     ∧ ∃ pre m post, s = pre ++ m ++ post ∧ leftmost pre m post)
  ∧ (∀ pre m post, s = pre ++ m ++ post → leftmost pre m post →
       replace_block s blk =
       Ok (pre ++ blk ++ [NL; NL] ++
           match replace_block post blk with Ok post' => post' | Raise _ => post end))
  ∧ (∀ pre m post, s = pre ++ m ++ post → leftmost pre m post → ¬ has_block post →
       replace_block s blk = Ok (pre ++ blk ++ [NL; NL] ++ post)).
Proof.
  intros H. split; [now apply replace_block_not_found|].
  split; [|split].
  - intros Hb. split; [now apply replace_block_found|now apply has_block_leftmost].
  - intros pre m post -> Hl. now apply replace_block_leftmost.
  - intros pre m post -> Hl Hn. rewrite replace_block_leftmost by assumption.
    now rewrite (proj2 (replace_block_not_found post blk H) Hn).
Qed.

Lemma bare_block_clean : BACKSLASH ∉ bare_block.
Proof. apply (bool_decide_unpack _). vm_compute. exact I. Qed.

Lemma minimal_block_is_block : is_block minimal_block.
Proof. apply is_block_of_match. vm_compute. reflexivity. Qed.

(** C2, as stated, fails: a text with two matches is no error; both are
    replaced. *)
Lemma two_matches_no_error : ¬ one_match_required two_blocks bare_block.
Proof.
  intros H. destruct H as [e He].
  - exists [], minimal_block, [], minimal_block, [].
    split; [reflexivity|]. split; apply minimal_block_is_block.
  - vm_compute in He. discriminate.
Qed.

Lemma replace_block_every_match_witness :
  replace_block two_blocks bare_block
  = Ok (bare_block ++ [NL; NL] ++ bare_block ++ [NL; NL]).
Proof.
  destruct (replace_block_every_match two_blocks bare_block) as (_ & _ & H & _).
  { apply (bool_decide_unpack _). vm_compute. exact I. }
  rewrite (H [] minimal_block minimal_block eq_refl).
  - vm_compute. reflexivity.
  - split; [apply minimal_block_is_block|].
    intros p1 p2 Hp Hne. symmetry in Hp. apply app_eq_nil in Hp as [_ ->]. congruence.
Defined.

(** ** The rendered block holds no backslash *)

Lemma clean_app (a b : text) : clean a → clean b → clean (a ++ b).
Proof. unfold clean. rewrite elem_of_app. tauto. Qed.

Lemma clean_txt_decide (t : text) : bool_decide (clean t) = true → clean t.
Proof. apply bool_decide_eq_true_1. Qed.

Lemma clean_join (sep : text) (xs : list text) :
  clean sep → Forall clean xs → clean (join sep xs).
Proof.
  intros Hs H. induction H as [|x xs Hx Hxs IH]; [apply not_elem_of_nil|].
  cbn [join]. destruct xs as [|y xs]; [exact Hx|].
  apply clean_app; [exact Hx|]. apply clean_app; assumption.
Qed.

Lemma clean_drop (n : nat) (t : text) : clean t → clean (drop n t).
Proof.
  unfold clean. intros H Hin. apply H.
  rewrite <- (take_drop n t). apply elem_of_app. now right.
Qed.

Lemma clean_split (sep : N) (t : text) : clean t → Forall clean (split sep t).
Proof.
  unfold clean. induction t as [|c t IH]; intros H.
  - repeat constructor. apply not_elem_of_nil.
  - apply not_elem_of_cons in H as [Hc Ht]. specialize (IH Ht). cbn [split].
    destruct (c =? sep).
    + constructor; [apply not_elem_of_nil|exact IH].
    + destruct (split sep t) as [|w ws].
      * repeat constructor. apply not_elem_of_cons. split; [exact Hc|apply not_elem_of_nil].
      * inversion IH; subst. constructor; [|assumption].
        apply not_elem_of_cons. auto.
Qed.

Lemma clean_core : clean core.
Proof. apply clean_txt_decide. reflexivity. Qed.

Lemma clean_group_of (e : text) : clean e → clean (group_of e).
Proof.
  intros H. unfold group_of.
  destruct (length (split SLASH (drop (length prefix) e)) =? 1)%nat; [apply clean_core|].
  pose proof (clean_split SLASH _ (clean_drop (length prefix) e H)) as HF.
  destruct HF; [apply not_elem_of_nil|assumption].
Qed.

Lemma clean_setdefault_append g e groups :
  clean g → clean e → clean_groups groups → clean_groups (setdefault_append g e groups).
Proof.
  intros Hg He H. induction H as [|[k v] rest [Hk Hv] Hrest IH]; cbn [setdefault_append].
  - repeat constructor; assumption.
  - destruct (decide (k = g)).
    + constructor; [|assumption]. split; [assumption|].
      apply Forall_app. split; [assumption|]. repeat constructor. assumption.
    + constructor; [split; assumption|assumption].
Qed.

Lemma clean_build_groups (entries : list text) :
  Forall clean entries → clean_groups (build_groups entries).
Proof.
  unfold build_groups. assert (H0 : clean_groups []) by constructor.
  revert H0. generalize (@nil (text * list text)) as acc.
  induction entries as [|e l IH]; intros acc Hacc H; [exact Hacc|].
  inversion H as [|? ? He Hl]; subst. cbn [fold_left]. apply IH; [|assumption].
  unfold add_entry. destruct (negb (startswith prefix e)); [assumption|].
  apply clean_setdefault_append; auto. now apply clean_group_of.
Qed.

Lemma clean_groups_get g groups v :
  clean_groups groups → groups_get g groups = Some v → Forall clean v.
Proof.
  intros H. induction H as [|[k w] rest [Hk Hw] _ IH]; [discriminate|].
  cbn [groups_get]. destruct (decide (k = g)); [|exact IH].
  intros [= <-]. exact Hw.
Qed.

Lemma clean_ordered_groups groups :
  clean_groups groups → Forall clean (ordered_groups groups).
Proof.
  intros H. unfold ordered_groups. apply Forall_app. split.
  - destruct (decide (core ∈ keys groups)); repeat constructor. apply clean_core.
  - unfold sorted_text. rewrite merge_sort_Permutation.
    apply Forall_forall. intros k Hk. apply list_elem_of_filter in Hk as [_ Hk].
    unfold keys in Hk. apply list_elem_of_fmap in Hk as ([k' v] & -> & Hin).
    unfold clean_groups in H. rewrite Forall_forall in H. apply (H _ Hin).
Qed.

Lemma clean_entry_line (p : text) : clean p → clean (entry_line p).
Proof.
  intros H. unfold entry_line.
  repeat (apply clean_app; [try (apply clean_txt_decide; reflexivity)|]);
    try assumption; apply clean_txt_decide; reflexivity.
Qed.

Lemma clean_group_lines groups g :
  clean_groups groups → clean g → Forall clean (group_lines groups g).
Proof.
  intros H Hg. unfold group_lines. constructor.
  - apply clean_app; [apply clean_txt_decide; reflexivity|assumption].
  - apply Forall_app. split; [|repeat constructor; apply not_elem_of_nil].
    apply Forall_fmap. unfold sorted_text. rewrite merge_sort_Permutation.
    destruct (groups_get g groups) as [v|] eqn:E; [|constructor].
    eapply Forall_impl; [exact (clean_groups_get _ _ _ H E)|].
    intros p Hp. now apply clean_entry_line.
Qed.

Lemma format_zig_array_clean (entries : list text) :
  Forall clean entries → clean (format_zig_array entries).
Proof.
  intros H. unfold format_zig_array. apply clean_join.
  - apply clean_txt_decide. reflexivity.
  - pose proof (clean_build_groups entries H) as Hg.
    repeat (apply Forall_app; split).
    + repeat constructor; apply clean_txt_decide; reflexivity.
    + apply Forall_concat, Forall_fmap.
      eapply Forall_impl; [exact (clean_ordered_groups _ Hg)|].
      intros g Hgn. now apply clean_group_lines.
    + repeat constructor. apply clean_txt_decide. reflexivity.
Qed.

(** The block that [main] renders never holds a backslash: the discoverer
    has replaced them all. *)
Lemma generated_no_backslash (REPO_ROOT : path) (ps : list path) :
  BACKSLASH ∉ format_zig_array (map (entry_of REPO_ROOT) ps).
Proof.
  apply format_zig_array_clean, Forall_fmap, Forall_forall.
  intros p _. apply entry_of_no_backslash.
Qed.

(** ** The paths of the build file and of its backup *)

Lemma with_suffix_build (r : path) :
  with_suffix (build_path_of r) (txt ".zig.bak") = Some (backup_path_of r).
Proof.
  unfold with_suffix, build_path_of, backup_path_of, div, name.
  rewrite last_snoc. rewrite bool_decide_eq_false_2 by discriminate.
  cbv beta iota. change (suffix (txt "build.zig")) with (txt ".zig").
  rewrite length_app. cbn [length]. rewrite Nat.add_sub.
  rewrite take_app_length. reflexivity.
Qed.

Lemma build_ne_backup (r : path) : build_path_of r ≠ backup_path_of r.
Proof.
  unfold build_path_of, backup_path_of, div. intros E.
  apply app_inj_tail in E as [_ E]. discriminate.
Qed.

Lemma build_backup_length (r : path) :
  length (build_path_of r) = length (backup_path_of r).
Proof. unfold build_path_of, backup_path_of, div. now rewrite !length_app. Qed.

Lemma src_root_ne_build (r : path) : src_root r ≠ build_path_of r.
Proof.
  unfold build_path_of, src_root, div. intros E.
  apply app_inj_tail in E as [_ E]. discriminate.
Qed.

Lemma src_root_ne_backup (r : path) : src_root r ≠ backup_path_of r.
Proof.
  unfold backup_path_of, src_root, div. intros E.
  apply app_inj_tail in E as [_ E]. discriminate.
Qed.

Lemma name_snoc (p : path) (n : text) : n ≠ txt "/" → name (p ++ [n]) = n.
Proof. intros H. unfold name. rewrite last_snoc. now rewrite bool_decide_eq_false_2. Qed.

Lemma build_not_matched (r root : path) (v : node) :
  matches (txt ".c") root (build_path_of r, v) = false.
Proof.
  unfold matches, build_path_of, div. cbn [fst]. rewrite name_snoc by discriminate.
  apply andb_false_r.
Qed.

Lemma backup_not_matched (r root : path) (v : node) :
  matches (txt ".c") root (backup_path_of r, v) = false.
Proof.
  unfold matches, backup_path_of, div. cbn [fst]. rewrite name_snoc by discriminate.
  apply andb_false_r.
Qed.

(** ** Discovery does not see the build file or its backup *)

Lemma filter_insert_unmatched (ext : text) (root p : path) (v : node) (m : gmap path node) :
  (∀ v' : node, matches ext root (p, v') = false) →
  filter (λ kv, matches ext root kv) (<[p := v]> m) = filter (λ kv, matches ext root kv) m.
Proof.
  intros H. rewrite map_filter_insert_False by (rewrite H; auto).
  apply map_filter_delete_not. intros y _. rewrite H. auto.
Qed.

Lemma filter_delete_unmatched (ext : text) (root p : path) (m : gmap path node) :
  (∀ v' : node, matches ext root (p, v') = false) →
  filter (λ kv, matches ext root kv) (delete p m) = filter (λ kv, matches ext root kv) m.
Proof.
  intros H. apply map_filter_delete_not. intros y _. rewrite H. auto.
Qed.

Lemma rglob_paths_insert (ext : text) (root p : path) (v : node) (m : gmap path node) :
  p ≠ root → (∀ v' : node, matches ext root (p, v') = false) →
  rglob_paths ext root (<[p := v]> m) = rglob_paths ext root m.
Proof.
  intros Hne H. unfold rglob_paths.
  rewrite lookup_insert_ne by assumption. now rewrite filter_insert_unmatched.
Qed.

Lemma rglob_paths_delete (ext : text) (root p : path) (m : gmap path node) :
  p ≠ root → (∀ v' : node, matches ext root (p, v') = false) →
  rglob_paths ext root (delete p m) = rglob_paths ext root m.
Proof.
  intros Hne H. unfold rglob_paths.
  rewrite lookup_delete_ne by assumption. now rewrite filter_delete_unmatched.
Qed.

Section Generated.
Variable REPO_ROOT : path.

Lemma generated_of_insert_build r v m :
  generated_of REPO_ROOT r (<[build_path_of r := v]> m) = generated_of REPO_ROOT r m.
Proof.
  unfold generated_of. rewrite rglob_paths_insert; [reflexivity| |].
  - intros E. symmetry in E. now apply src_root_ne_build in E.
  - intros v'. apply build_not_matched.
Qed.

Lemma generated_of_insert_backup r v m :
  generated_of REPO_ROOT r (<[backup_path_of r := v]> m) = generated_of REPO_ROOT r m.
Proof.
  unfold generated_of. rewrite rglob_paths_insert; [reflexivity| |].
  - intros E. symmetry in E. now apply src_root_ne_backup in E.
  - intros v'. apply backup_not_matched.
Qed.

Lemma generated_of_delete_build r m :
  generated_of REPO_ROOT r (delete (build_path_of r) m) = generated_of REPO_ROOT r m.
Proof.
  unfold generated_of. rewrite rglob_paths_delete; [reflexivity| |].
  - intros E. symmetry in E. now apply src_root_ne_build in E.
  - intros v'. apply build_not_matched.
Qed.

Lemma generated_of_clean r m : BACKSLASH ∉ generated_of REPO_ROOT r m.
Proof. apply generated_no_backslash. Qed.

(** [main] under [--apply], step by step. *)
Lemma main_apply_steps (r : path) :
  main REPO_ROOT (applying r) =
  (entries ← find_c_files REPO_ROOT (src_root r);
   print (format_zig_array entries);;
   src_input ← choose_input (build_path_of r) (backup_path_of r);
   guarded_patch src_input (build_path_of r) (backup_path_of r)
     (format_zig_array entries)).
Proof.
  unfold main, applying. cbn [root apply]. rewrite with_suffix_build. reflexivity.
Qed.

Lemma main_apply_run (r : path) (w : world) (n : node) :
  fs w !! src_root r = Some n →
  main REPO_ROOT (applying r) w =
  (src_input ← choose_input (build_path_of r) (backup_path_of r);
   guarded_patch src_input (build_path_of r) (backup_path_of r)
     (generated_of REPO_ROOT r (fs w)))
    {| fs := fs w; stdout := stdout w ++ [generated_of REPO_ROOT r (fs w)]; io := io w |}.
Proof.
  intros H. rewrite main_apply_steps.
  erewrite bind_ok; [|rewrite find_c_files_run, H; reflexivity].
  reflexivity.
Qed.
End Generated.

(** ** The choice of the input file *)

Lemma exists_run (p : path) (w : world) :
  exists_ p w = (Ok (bool_decide (is_Some (fs w !! p))), w).
Proof. reflexivity. Qed.

Lemma move_tree_source_gone (src dst : path) (m : gmap path node) :
  src ≠ dst → length src = length dst → move_tree src dst m !! src = None.
Proof.
  intros Hne Hlen. unfold move_tree.
  apply (map_fold_weak_ind (λ acc _, acc !! src = None)); [apply lookup_empty|].
  intros k v m' acc _ IH. rewrite lookup_insert_ne; [exact IH|].
  unfold rebase. destruct (strip_prefix src k) as [rest|] eqn:E.
  - intros E'. assert (rest = []) as ->.
    { apply (f_equal length) in E'. rewrite length_app in E'.
      destruct rest; [reflexivity|]. cbn [length] in E'. lia. }
    rewrite app_nil_r in E'. congruence.
  - intros ->.
    assert (strip_prefix src src = Some [])
      by (apply strip_prefix_spec; now rewrite app_nil_r).
    congruence.
Qed.

(** After the choice the input is the backup and the target is absent. *)
Lemma choose_input_ok (build backup src_input : path) (w w1 : world) :
  build ≠ backup → length build = length backup →
  choose_input build backup w = (Ok src_input, w1) →
  src_input = backup ∧ fs w1 !! build = None ∧ io w1 = io w ∧ stdout w1 = stdout w.
Proof.
  intros Hne Hlen. unfold choose_input, mbind, M_bind, bind. rewrite exists_run.
  destruct (fs w !! build) as [n|] eqn:Eb.
  - rewrite bool_decide_eq_true_2 by eauto. unfold replace.
    destruct (replace_fault (io w) build backup); [discriminate|]. rewrite Eb.
    destruct n as [t|].
    + destruct (fs w !! backup) as [[t'|]|] eqn:Ek; try discriminate;
        intros [= <- <-]; cbn [fs io stdout set_fs];
        (split; [reflexivity|]); (split; [|split; reflexivity]);
        rewrite lookup_insert_ne by congruence; apply lookup_delete_eq.
    + destruct (fs w !! backup) as [[t'|]|] eqn:Ek; try discriminate.
      * destruct (has_children backup (fs w)); [discriminate|].
        intros [= <- <-]. cbn [fs io stdout set_fs].
        split; [reflexivity|]. split; [|split; reflexivity].
        now apply move_tree_source_gone.
      * intros [= <- <-]. cbn [fs io stdout set_fs].
        split; [reflexivity|]. split; [|split; reflexivity].
        now apply move_tree_source_gone.
  - rewrite bool_decide_eq_false_2 by (intros [? ?]; discriminate).
    rewrite exists_run. destruct (fs w !! backup) as [n|] eqn:Ek.
    + rewrite bool_decide_eq_true_2 by eauto. intros [= <- <-]. auto.
    + rewrite bool_decide_eq_false_2 by (intros [? ?]; discriminate). discriminate.
Qed.

(** The target exists and is a file: it becomes the backup. *)
Lemma choose_input_fresh (build backup : path) (w : world) (t : text) :
  replace_fault (io w) build backup = None →
  fs w !! build = Some (File t) → fs w !! backup ≠ Some Dir →
  choose_input build backup w
  = (Ok backup, set_fs w (<[backup := File t]> (delete build (fs w)))).
Proof.
  intros Hf Hb Hk. unfold choose_input, mbind, M_bind, bind. rewrite exists_run.
  rewrite bool_decide_eq_true_2 by eauto. unfold replace. rewrite Hf, Hb.
  destruct (fs w !! backup) as [[t'|]|]; try reflexivity. congruence.
Qed.

(** The target is absent and the backup exists: the backup is read. *)
Lemma choose_input_from_backup (build backup : path) (w : world) :
  fs w !! build = None → is_Some (fs w !! backup) →
  choose_input build backup w = (Ok backup, w).
Proof.
  intros Hb Hk. unfold choose_input, mbind, M_bind, bind, exists_.
  rewrite bool_decide_eq_false_2 by (rewrite Hb; intros [? ?]; discriminate).
  now rewrite bool_decide_eq_true_2.
Qed.

(** ** The patcher on files *)

Lemma patch_run (input output : path) (blk t : text) (w : world) :
  read_fault (io w) input = None → fs w !! input = Some (File t) →
  replace_block_in_build_paths input output blk w =
  match replace_block t blk with
  | Ok new_txt => write_text output new_txt w
  | Raise e => (Raise e, w)
  end.
Proof.
  intros Hf Hi. unfold replace_block_in_build_paths, mbind, M_bind, bind, read_text.
  rewrite Hf, Hi. unfold lift. destruct (replace_block t blk); reflexivity.
Qed.

(** A failed patch leaves the world as it was, or a failed write has left
    something at the output path. *)
Lemma patch_failure_state (input output : path) (blk : text) (w w2 : world) (e : raised) :
  replace_block_in_build_paths input output blk w = (Raise e, w2) →
  w2 = w
  ∨ ∃ new_txt partial e',
      e = Exc e' ∧ write_fault (io w) output new_txt = Some (Some partial, e')
      ∧ w2 = set_fs w (<[output := File partial]> (fs w)).
Proof.
  unfold replace_block_in_build_paths, mbind, M_bind, bind, read_text, lift.
  destruct (read_fault (io w) input); [intros [= <- <-]; auto|].
  destruct (fs w !! input) as [[t|]|]; try (intros [= <- <-]; auto; fail).
  destruct (replace_block t blk) as [new_txt|e0]; [|intros [= <- <-]; auto].
  unfold write_text.
  destruct (write_fault (io w) output new_txt) as [[[partial|] e']|] eqn:Ew.
  - intros [= <- <-]. right. eauto 6.
  - intros [= <- <-]. auto.
  - destruct (fs w !! output) as [[t'|]|]; try discriminate. intros [= <- <-]. auto.
Qed.

Lemma has_block_dec (s : text) : has_block s ∨ ¬ has_block s.
Proof.
  induction s as [|x s IH].
  - right. intros (pre & rest & E & Hs). symmetry in E.
    apply app_eq_nil in E as [_ ->].
    apply starts_block_match in Hs as [n Hn]. discriminate.
  - destruct (match_here PATTERN (x :: s)) as [n|] eqn:E.
    + left. exists [], (x :: s). split; [reflexivity|]. apply starts_block_match. eauto.
    + apply not_starts_block_match in E. destruct IH as [(pre & rest & -> & Hs)|Hn].
      * left. exists (x :: pre), rest. auto.
      * right. intros (pre & rest & Hx & Hs). destruct pre as [|y pre].
        -- cbn [app] in Hx. subst rest. contradiction.
        -- injection Hx as -> ->. apply Hn. exists pre, rest. auto.
Qed.

Lemma has_block_of_ok (s blk out : text) :
  BACKSLASH ∉ blk → replace_block s blk = Ok out → has_block s.
Proof.
  intros Hc H. destruct (has_block_dec s) as [Hb|Hn]; [exact Hb|].
  apply (replace_block_not_found s blk Hc) in Hn. congruence.
Qed.

(** ** The guarded patch *)

Lemma guarded_patch_ok (src_input build backup : path) (blk : text) (w w2 : world) :
  replace_block_in_build_paths src_input build blk w = (Ok tt, w2) →
  guarded_patch src_input build backup blk w =
  (Ok tt,
   {| fs := fs w2;
      stdout := stdout w2 ++ [txt "Applied updated src_files to " ++ str build
                              ++ txt " (backup at " ++ str backup ++ txt ")"];
      io := io w2 |}).
Proof.
  intros H. unfold guarded_patch, try_except, mbind, M_bind, bind. now rewrite H.
Qed.

Lemma guarded_patch_failure (src_input build backup : path) (blk : text)
    (w w2 : world) (e : raised) :
  fs w !! build = None →
  replace_block_in_build_paths src_input build blk w = (Raise e, w2) →
  ∃ w3, guarded_patch src_input build backup blk w = (Raise e, w3)
    ∧ (∀ p, p ≠ build → fs w3 !! p = fs w !! p)
    ∧ (fs w3 !! build = None
       ∨ (is_Some (unlink_fault (io w) build) ∧ fs w3 !! build = fs w2 !! build))
    ∧ stdout w3 = stdout w ∧ io w3 = io w.
Proof.
  intros Hb H. pose proof (patch_failure_state _ _ _ _ _ _ H) as Hs.
  unfold guarded_patch, try_except, mbind, M_bind, bind at 1. rewrite H.
  destruct Hs as [->|(new_txt & partial & e' & -> & Hw & ->)].
  - destruct e as [msg|e'].
    + exists w. auto.
    + unfold bind, exists_. rewrite bool_decide_eq_false_2
        by (rewrite Hb; intros [? ?]; discriminate).
      exists w. auto.
  - unfold bind, exists_. cbn [fs set_fs]. rewrite lookup_insert_eq.
    rewrite bool_decide_eq_true_2 by eauto.
    unfold unlink. cbn [io fs set_fs].
    destruct (unlink_fault (io w) build) as [eu|] eqn:Eu.
    + eexists. split; [reflexivity|]. cbn [fs set_fs stdout io].
      split; [intros p Hp; now rewrite lookup_insert_ne|]. split; [|auto].
      right. split; [eauto|apply lookup_insert_eq].
    + rewrite lookup_insert_eq. eexists. split; [reflexivity|].
      cbn [fs set_fs stdout io].
      split; [intros p Hp; now rewrite lookup_delete_ne, lookup_insert_ne|].
      split; [|auto]. left. apply lookup_delete_eq.
Qed.

Section ApplyClaims.

Variable REPO_ROOT : path.

(** C7. A failure of the patcher during an apply: [main] ends with the error
    that the patcher raised; the backup, and every path but the target, is
    what it was when the patcher started; the target is absent, unless
    deleting it failed, which changes neither the error nor anything else. *)
Theorem patch_failure_cleanup (r : path) (w w1 w2 : world) (src_input : path)
    (e : raised) :
  is_Some (fs w !! src_root r) →
  choose_input (build_path_of r) (backup_path_of r)
    {| fs := fs w; stdout := stdout w ++ [generated_of REPO_ROOT r (fs w)]; io := io w |}
  = (Ok src_input, w1) →
  replace_block_in_build_paths src_input (build_path_of r)
    (generated_of REPO_ROOT r (fs w)) w1 = (Raise e, w2) →
  ∃ w3, main REPO_ROOT (applying r) w = (Raise e, w3)
    ∧ fs w3 !! backup_path_of r = fs w1 !! backup_path_of r
    ∧ (∀ p, p ≠ build_path_of r → fs w3 !! p = fs w1 !! p)
    ∧ (fs w3 !! build_path_of r = None
       ∨ (is_Some (unlink_fault (io w) (build_path_of r))
          ∧ fs w3 !! build_path_of r = fs w2 !! build_path_of r)).
Proof.
  intros [n Hn] Hc Hp.
  destruct (choose_input_ok _ _ _ _ _ (build_ne_backup r) (build_backup_length r) Hc)
    as (-> & Hb & Hio & _).
  destruct (guarded_patch_failure _ _ (backup_path_of r) _ _ _ _ Hb Hp)
    as (w3 & Hg & Hother & Htarget & _ & _).
  exists w3. split.
  - rewrite (main_apply_run REPO_ROOT r w n Hn).
    unfold mbind, M_bind, bind at 1. rewrite Hc. exact Hg.
  - split; [apply Hother; intros E; symmetry in E; now apply build_ne_backup in E|].
    split; [exact Hother|]. cbn [io] in Hio. rewrite <- Hio. exact Htarget.
Qed.

(** C3, as amended.  When apply is asked for a target whose text holds no
    block, the run fails with the pattern-not-found error and a non-zero
    status, and nothing is written to the target: the file has been moved,
    unmodified, to the backup path, the target path is left absent, and
    every other path is what it was. *)
Theorem pattern_not_found_fails_closed (r : path) (w : world) (t : text) :
  is_Some (fs w !! src_root r) →
  replace_fault (io w) (build_path_of r) (backup_path_of r) = None →
  read_fault (io w) (backup_path_of r) = None →
  fs w !! build_path_of r = Some (File t) →
  fs w !! backup_path_of r ≠ Some Dir →
  ¬ has_block t →
  ∃ w', main REPO_ROOT (applying r) w = (Raise NOT_FOUND, w')
    ∧ exit_status (main REPO_ROOT (applying r) w).1 ≠ 0%Z
    ∧ fs w' !! build_path_of r = None
    ∧ fs w' !! backup_path_of r = Some (File t)
    ∧ (∀ p, p ≠ build_path_of r → p ≠ backup_path_of r → fs w' !! p = fs w !! p).
Proof.
  intros [n Hn] Hrf Hread Hb Hk Hnb.
  assert (Hm : main REPO_ROOT (applying r) w =
               (Raise NOT_FOUND,
                set_fs {| fs := fs w;
                          stdout := stdout w ++ [generated_of REPO_ROOT r (fs w)];
                          io := io w |}
                  (<[backup_path_of r := File t]> (delete (build_path_of r) (fs w))))).
  { rewrite (main_apply_run REPO_ROOT r w n Hn).
    unfold mbind, M_bind, bind at 1.
    rewrite choose_input_fresh with (t := t) by assumption.
    unfold guarded_patch, try_except, mbind, M_bind, bind at 1.
    rewrite patch_run with (t := t);
      [|exact Hread|cbn [fs set_fs]; apply lookup_insert_eq].
    now rewrite (proj2 (replace_block_not_found t _
                          (generated_of_clean REPO_ROOT r (fs w))) Hnb). }
  eexists. split; [exact Hm|]. rewrite Hm. split; [discriminate|].
  cbn [fs set_fs]. split; [|split].
  - rewrite lookup_insert_ne
      by (intros E; symmetry in E; now apply build_ne_backup in E).
    apply lookup_delete_eq.
  - apply lookup_insert_eq.
  - intros p H1 H2. now rewrite lookup_insert_ne, lookup_delete_ne.
Qed.

End ApplyClaims.

(** ** Successful applies *)

Section ApplyRuns.

Variable REPO_ROOT : path.

Lemma write_text_new (p : path) (t : text) (w : world) :
  write_fault (io w) p t = None → fs w !! p = None →
  write_text p t w = (Ok tt, set_fs w (<[p := File t]> (fs w))).
Proof. intros Hf Hp. unfold write_text. now rewrite Hf, Hp. Qed.

(** The target exists: it is moved to the backup, patched, and written. *)
Lemma apply_fresh_run (r : path) (w : world) (t0 t1 : text) (n : node) :
  fs w !! src_root r = Some n →
  replace_fault (io w) (build_path_of r) (backup_path_of r) = None →
  read_fault (io w) (backup_path_of r) = None →
  write_fault (io w) (build_path_of r) t1 = None →
  fs w !! build_path_of r = Some (File t0) →
  fs w !! backup_path_of r ≠ Some Dir →
  replace_block t0 (generated_of REPO_ROOT r (fs w)) = Ok t1 →
  main REPO_ROOT (applying r) w =
  (Ok tt,
   {| fs := <[build_path_of r := File t1]>
              (<[backup_path_of r := File t0]> (delete (build_path_of r) (fs w)));
      stdout := (stdout w ++ [generated_of REPO_ROOT r (fs w)]) ++ [applied_message r];
      io := io w |}).
Proof.
  intros Hn Hrf Hread Hwrite Hb Hk Hpatch.
  rewrite (main_apply_run REPO_ROOT r w n Hn).
  unfold mbind, M_bind, bind at 1.
  rewrite choose_input_fresh with (t := t0) by assumption.
  match goal with
  | |- guarded_patch ?i ?o ?k ?g ?w0 = _ =>
      assert (Hp : replace_block_in_build_paths i o g w0
                   = (Ok tt, set_fs w0 (<[o := File t1]> (fs w0))))
  end.
  { rewrite patch_run with (t := t0);
      [|exact Hread|cbn [fs set_fs]; apply lookup_insert_eq].
    rewrite Hpatch. apply write_text_new; [exact Hwrite|].
    cbn [fs set_fs].
    rewrite lookup_insert_ne
      by (intros E; symmetry in E; now apply build_ne_backup in E).
    apply lookup_delete_eq. }
  rewrite (guarded_patch_ok _ _ (backup_path_of r) _ _ _ Hp). reflexivity.
Qed.

(** The target is absent and the backup exists: the backup is patched and
    the result written to the target. *)
Lemma apply_from_backup_run (r : path) (w : world) (t0 t1 : text) (n : node) :
  fs w !! src_root r = Some n →
  read_fault (io w) (backup_path_of r) = None →
  write_fault (io w) (build_path_of r) t1 = None →
  fs w !! build_path_of r = None →
  fs w !! backup_path_of r = Some (File t0) →
  replace_block t0 (generated_of REPO_ROOT r (fs w)) = Ok t1 →
  main REPO_ROOT (applying r) w =
  (Ok tt,
   {| fs := <[build_path_of r := File t1]> (fs w);
      stdout := (stdout w ++ [generated_of REPO_ROOT r (fs w)]) ++ [applied_message r];
      io := io w |}).
Proof.
  intros Hn Hread Hwrite Hb Hk Hpatch.
  rewrite (main_apply_run REPO_ROOT r w n Hn).
  unfold mbind, M_bind, bind at 1.
  rewrite choose_input_from_backup by (cbn [fs]; eauto).
  match goal with
  | |- guarded_patch ?i ?o ?k ?g ?w0 = _ =>
      assert (Hp : replace_block_in_build_paths i o g w0
                   = (Ok tt, set_fs w0 (<[o := File t1]> (fs w0))))
  end.
  { rewrite patch_run with (t := t0); [|exact Hread|exact Hk].
    rewrite Hpatch. now apply write_text_new. }
  rewrite (guarded_patch_ok _ _ (backup_path_of r) _ _ _ Hp). reflexivity.
Qed.

(** C5. Backup recovery: from a target with a block and no backup, one
    apply leaves the patched text in the target and the original in the
    backup; with the target then deleted and the backup kept, a second apply
    reads the backup, patches it, succeeds, and writes the same text to the
    target as the first apply did. *)
Theorem backup_recovery (r : path) (w : world) (t0 : text) :
  io w = no_faults →
  is_Some (fs w !! src_root r) →
  fs w !! build_path_of r = Some (File t0) →
  fs w !! backup_path_of r = None →
  has_block t0 →
  ∃ t1 w1 w2,
    main REPO_ROOT (applying r) w = (Ok tt, w1)
    ∧ fs w1 !! build_path_of r = Some (File t1)
    ∧ fs w1 !! backup_path_of r = Some (File t0)
    ∧ replace_block t0 (generated_of REPO_ROOT r (fs w)) = Ok t1
    ∧ main REPO_ROOT (applying r) (set_fs w1 (delete (build_path_of r) (fs w1)))
      = (Ok tt, w2)
    ∧ fs w2 !! build_path_of r = Some (File t1)
    ∧ fs w2 !! backup_path_of r = Some (File t0).
Proof.
  intros Hio [n Hn] Hb Hk Hblock.
  destruct (replace_block_found t0 _ (generated_of_clean REPO_ROOT r (fs w)) Hblock)
    as [t1 Ht1].
  assert (Hbk : build_path_of r ≠ backup_path_of r) by apply build_ne_backup.
  assert (Hkb : backup_path_of r ≠ build_path_of r) by (intros E; now symmetry in E).
  assert (Hsb : build_path_of r ≠ src_root r)
    by (intros E; symmetry in E; now apply src_root_ne_build in E).
  assert (Hsk : backup_path_of r ≠ src_root r)
    by (intros E; symmetry in E; now apply src_root_ne_backup in E).
  exists t1. eexists. eexists.
  split; [|split; [|split; [|split; [|split; [|split]]]]].
  - apply (apply_fresh_run r w t0 t1 n); try assumption; try (rewrite Hio; reflexivity).
    rewrite Hk. discriminate.
  - cbn [fs]. apply lookup_insert_eq.
  - cbn [fs]. rewrite lookup_insert_ne by assumption. apply lookup_insert_eq.
  - exact Ht1.
  - cbn [fs set_fs stdout io].
    apply (apply_from_backup_run r _ t0 t1 n); cbn [fs set_fs io stdout];
      try (rewrite Hio; reflexivity).
    + now rewrite lookup_delete_ne, !lookup_insert_ne, lookup_delete_ne.
    + apply lookup_delete_eq.
    + rewrite lookup_delete_ne, lookup_insert_ne by assumption. apply lookup_insert_eq.
    + rewrite generated_of_delete_build, generated_of_insert_build,
        generated_of_insert_backup, generated_of_delete_build. exact Ht1.
  - cbn [fs set_fs]. apply lookup_insert_eq.
  - cbn [fs set_fs].
    rewrite lookup_insert_ne, lookup_delete_ne, lookup_insert_ne by assumption.
    apply lookup_insert_eq.
Qed.

End ApplyRuns.

(** ** The claims on the sample checkout *)

Lemma old_build_has_block : has_block old_build.
Proof.
  destruct (replace_block old_build bare_block) as [out|e] eqn:E.
  - exact (has_block_of_ok old_build bare_block out bare_block_clean E).
  - vm_compute in E. discriminate.
Qed.

Lemma plain_build_no_block : ¬ has_block plain_build.
Proof.
  apply (replace_block_not_found plain_build bare_block bare_block_clean).
  vm_compute. reflexivity.
Qed.

(** C3, as stated, fails: after the failed apply the target is not what it
    was; it is gone, moved to the backup path. *)
Lemma target_moved_away : ¬ target_untouched repo repo plain_world.
Proof.
  intros H.
  destruct (H plain_build eq_refl plain_build_no_block
              (main repo (applying repo) plain_world).1
              (main repo (applying repo) plain_world).2) as [_ Hb].
  - apply surjective_pairing.
  - vm_compute in Hb. discriminate.
Qed.

Lemma pattern_not_found_fails_closed_witness :
  ∃ w', main repo (applying repo) plain_world = (Raise NOT_FOUND, w')
    ∧ fs w' !! build_path_of repo = None
    ∧ fs w' !! backup_path_of repo = Some (File plain_build).
Proof.
  destruct (pattern_not_found_fails_closed repo repo plain_world plain_build)
    as (w' & H1 & _ & H2 & H3 & _).
  - exists Dir. vm_compute. reflexivity.
  - reflexivity.
  - reflexivity.
  - vm_compute. reflexivity.
  - vm_compute. discriminate.
  - exact plain_build_no_block.
  - exists w'. auto.
Defined.

Lemma backup_recovery_witness :
  ∃ t1 w1 w2,
    main repo (applying repo) repo_world = (Ok tt, w1)
    ∧ fs w1 !! build_path_of repo = Some (File t1)
    ∧ fs w1 !! backup_path_of repo = Some (File old_build)
    ∧ replace_block old_build (generated_of repo repo (fs repo_world)) = Ok t1
    ∧ main repo (applying repo) (set_fs w1 (delete (build_path_of repo) (fs w1)))
      = (Ok tt, w2)
    ∧ fs w2 !! build_path_of repo = Some (File t1)
    ∧ fs w2 !! backup_path_of repo = Some (File old_build).
Proof.
  apply (backup_recovery repo repo repo_world old_build).
  - reflexivity.
  - exists Dir. vm_compute. reflexivity.
  - vm_compute. reflexivity.
  - vm_compute. reflexivity.
  - exact old_build_has_block.
Defined.

Lemma sample_first_patch : replace_block old_build sample_block = Ok patched_once.
Proof. vm_compute. reflexivity. Qed.

(** On a disk that fails the write half way and refuses the deletion, the
    run ends with the error of the write and the backup holds the
    original. *)
Lemma patch_failure_cleanup_witness :
  ∃ w3, main repo (applying repo) bad_disk_world = (Raise (Exc OSError), w3)
    ∧ fs w3 !! backup_path_of repo = Some (File old_build).
Proof.
  pose (w0 := {| fs := repo_fs; stdout := [] ++ [sample_block]; io := bad_disk |}).
  pose (w1 := set_fs w0 (<[backup_path_of repo := File old_build]>
                           (delete (build_path_of repo) (fs w0)))).
  pose (w2 := set_fs w1 (<[build_path_of repo := File (take 10 patched_once)]> (fs w1))).
  assert (Hc : choose_input (build_path_of repo) (backup_path_of repo) w0
               = (Ok (backup_path_of repo), w1)).
  { apply choose_input_fresh.
    - reflexivity.
    - vm_compute. reflexivity.
    - vm_compute. discriminate. }
  assert (Hp : replace_block_in_build_paths (backup_path_of repo) (build_path_of repo)
                 sample_block w1 = (Raise (Exc OSError), w2)).
  { rewrite patch_run with (t := old_build).
    - rewrite sample_first_patch. reflexivity.
    - reflexivity.
    - apply lookup_insert_eq. }
  assert (Hs : is_Some (fs bad_disk_world !! src_root repo)).
  { exists Dir. vm_compute. reflexivity. }
  destruct (patch_failure_cleanup repo repo bad_disk_world w1 w2
              (backup_path_of repo) (Exc OSError) Hs Hc Hp) as (w3 & Hm & Hk & _).
  exists w3. split; [exact Hm|]. rewrite Hk. apply lookup_insert_eq.
Defined.

Lemma sample_second_patch : replace_block patched_once sample_block = Ok patched_twice.
Proof. vm_compute. reflexivity. Qed.

Lemma sample_src_root (m : gmap path node) :
  <[build_path_of repo := File patched_once]>
    (<[backup_path_of repo := File old_build]> (delete (build_path_of repo) repo_fs))
    !! src_root repo = Some Dir.
Proof.
  rewrite !lookup_insert_ne, lookup_delete_ne.
  - vm_compute. reflexivity.
  - intros E. symmetry in E. now apply src_root_ne_build in E.
  - intros E. symmetry in E. now apply src_root_ne_backup in E.
  - intros E. symmetry in E. now apply src_root_ne_build in E.
Qed.

(** C1 on the sample checkout.  The second apply moves the text of the
    first to the backup, as the specification says, but writes a different
    text to the target: one more blank line behind the block.  The pattern
    consumes one newline behind [};] and the replacement puts two. *)
Theorem apply_twice_adds_blank_line :
  ∃ w1 w2,
    main repo (applying repo) repo_world = (Ok tt, w1)
    ∧ fs w1 !! build_path_of repo = Some (File patched_once)
    ∧ main repo (applying repo) w1 = (Ok tt, w2)
    ∧ fs w2 !! backup_path_of repo = Some (File patched_once)
    ∧ fs w2 !! build_path_of repo = Some (File patched_twice)
    ∧ patched_twice ≠ patched_once.
Proof.
  assert (Hbk : build_path_of repo ≠ backup_path_of repo) by apply build_ne_backup.
  eexists. eexists. split; [|split; [|split; [|split; [|split]]]].
  - apply (apply_fresh_run repo repo repo_world old_build patched_once Dir).
    + vm_compute. reflexivity.
    + reflexivity.
    + reflexivity.
    + reflexivity.
    + vm_compute. reflexivity.
    + vm_compute. discriminate.
    + exact sample_first_patch.
  - cbn [fs]. apply lookup_insert_eq.
  - apply (apply_fresh_run repo repo _ patched_once patched_twice Dir); cbn [fs io].
    + apply (sample_src_root ∅).
    + reflexivity.
    + reflexivity.
    + reflexivity.
    + apply lookup_insert_eq.
    + rewrite lookup_insert_ne by assumption. rewrite lookup_insert_eq. discriminate.
    + rewrite generated_of_insert_build, generated_of_insert_backup,
        generated_of_delete_build. exact sample_second_patch.
  - cbn [fs]. rewrite lookup_insert_ne by assumption. apply lookup_insert_eq.
  - cbn [fs]. apply lookup_insert_eq.
  - intros E. apply (f_equal length) in E. vm_compute in E. discriminate.
Qed.

(** The same in general: a text whose leftmost block is a rendered block
    followed by the blank separator line, patched again with that block,
    gains a blank line. *)
Lemma second_patch_adds_blank_line (pre blk post : text) :
  BACKSLASH ∉ blk → leftmost pre (blk ++ [NL]) (NL :: post) →
  ¬ has_block (NL :: post) →
  replace_block (pre ++ blk ++ [NL; NL] ++ post) blk
  = Ok (pre ++ blk ++ [NL; NL; NL] ++ post).
Proof.
  intros Hc Hl Hn.
  pose proof (replace_block_leftmost pre (blk ++ [NL]) (NL :: post) blk Hc Hl) as H.
  rewrite (proj2 (replace_block_not_found (NL :: post) blk Hc) Hn) in H.
  rewrite <- !app_assoc in H. exact H.
Qed.

(** * Further properties of the script *)

(** ** The renderer, group by group *)

Lemma split_no_sep (sep : N) (t : text) : sep ∉ t → split sep t = [t].
Proof.
  induction t as [|c t IH]; intros H; [reflexivity|].
  apply not_elem_of_cons in H as [Hc Ht]. cbn [split].
  destruct (N.eqb_spec c sep) as [->|_]; [congruence|]. now rewrite (IH Ht).
Qed.

Lemma split_at_sep (sep : N) (d rest : text) :
  sep ∉ d → split sep (d ++ sep :: rest) = d :: split sep rest.
Proof.
  induction d as [|c d IH]; intros H.
  - cbn [app split]. now rewrite N.eqb_refl.
  - apply not_elem_of_cons in H as [Hc Hd]. cbn [app split].
    destruct (N.eqb_spec c sep) as [->|_]; [congruence|]. now rewrite (IH Hd).
Qed.

Lemma split_not_nil (sep : N) (t : text) : split sep t ≠ [].
Proof.
  destruct t as [|c t]; cbn [split]; [discriminate|].
  destruct (c =? sep); [discriminate|]. destruct (split sep t); discriminate.
Qed.

(** X2. Grouping goes by the first path segment below the prefix: an entry
    [native/flecs/src/d/...] belongs to the group [d], and an entry with no
    further separator, a file directly in the source root, to [core]; so a
    directory that is itself named [core] shares the group of those files. *)
Theorem group_of_first_segment (d rest f : text) :
  SLASH ∉ d → SLASH ∉ f →
  group_of (prefix ++ d ++ SLASH :: rest) = d
  ∧ group_of (prefix ++ f) = core
  ∧ group_of (prefix ++ core ++ SLASH :: rest) = group_of (prefix ++ f).
Proof.
  intros Hd Hf.
  assert (H1 : ∀ d', SLASH ∉ d' → group_of (prefix ++ d' ++ SLASH :: rest) = d').
  { intros d' Hd'. unfold group_of. rewrite drop_app_length, split_at_sep by assumption.
    pose proof (split_not_nil SLASH rest) as Hne.
    destruct (split SLASH rest); [congruence|reflexivity]. }
  assert (H2 : group_of (prefix ++ f) = core).
  { unfold group_of. now rewrite drop_app_length, split_no_sep. }
  split; [now apply H1|]. split; [exact H2|].
  rewrite H2. apply H1. apply (bool_decide_unpack _). vm_compute. exact I.
Qed.

Lemma group_of_first_segment_witness :
  group_of (prefix ++ txt "addons" ++ SLASH :: txt "http/server.c") = txt "addons"
  ∧ group_of (prefix ++ txt "world.c") = core.
Proof.
  destruct (group_of_first_segment (txt "addons") (txt "http/server.c") (txt "world.c"))
    as (H1 & H2 & _).
  - apply (bool_decide_unpack _). vm_compute. exact I.
  - apply (bool_decide_unpack _). vm_compute. exact I.
  - split; assumption.
Defined.

Lemma ordered_groups_elem (groups : groups_t) (g : text) :
  g ∈ ordered_groups groups ↔ g ∈ keys groups.
Proof.
  unfold ordered_groups, sorted_text.
  rewrite elem_of_app, merge_sort_Permutation, list_elem_of_filter.
  destruct (decide (core ∈ keys groups)) as [Hc|Hc].
  - rewrite list_elem_of_singleton. split.
    + intros [->|[_ ?]]; assumption.
    + intros Hg. destruct (decide (g = core)); auto.
  - rewrite elem_of_nil. split.
    + intros [[]|[_ ?]]. assumption.
    + intros Hg. right. split; [|assumption]. intros ->. contradiction.
Qed.

Lemma ordered_groups_NoDup (groups : groups_t) :
  NoDup (keys groups) → NoDup (ordered_groups groups).
Proof.
  intros H. unfold ordered_groups, sorted_text.
  assert (Hs : NoDup (merge_sort text_le (filter (λ k, k ≠ core) (keys groups)))).
  { rewrite merge_sort_Permutation. now apply NoDup_filter. }
  destruct (decide (core ∈ keys groups)); [|exact Hs].
  cbn [app]. apply NoDup_cons. split; [|exact Hs].
  rewrite merge_sort_Permutation, list_elem_of_filter. intros [Hne _]. now apply Hne.
Qed.

(** The lines of the block, with the members of each group in place of the
    dict. *)
Lemma format_zig_array_lines (entries : list text) :
  format_zig_array entries
  = join [NL]
      ([ZIG_ARRAY_HEADER;
        txt "    " ++ [DQUOTE] ++ txt "../../native/flecs_helpers.c" ++ [DQUOTE] ++ txt ",";
        []]
       ++ concat (map (λ g, (txt "    // " ++ g)
                            :: (map entry_line (sorted_text (members g entries))
                                ++ [[]]))
                    (ordered_groups (build_groups entries)))
       ++ [txt "};"]).
Proof.
  unfold format_zig_array. rewrite <- app_assoc. do 4 f_equal. apply map_ext. intros g.
  unfold group_lines, build_groups. now rewrite fold_add_entry_get.
Qed.

Lemma members_not_nil (g : text) (entries : list text) :
  members g entries ≠ [] ↔
  ∃ e, e ∈ entries ∧ startswith prefix e = true ∧ group_of e = g.
Proof.
  unfold members. split.
  - intros Hne. destruct (filter _ entries) as [|e l] eqn:E; [congruence|].
    assert (He : e ∈ filter (λ e, startswith prefix e = true ∧ group_of e = g) entries)
      by (rewrite E; apply list_elem_of_here).
    apply list_elem_of_filter in He as [[H1 H2] H3]. eauto.
  - intros (e & He & H1 & H2) E.
    assert (Hin : e ∈ filter (λ e, startswith prefix e = true ∧ group_of e = g) entries)
      by (apply list_elem_of_filter; auto).
    rewrite E in Hin. now apply elem_of_nil in Hin.
Qed.

Lemma ordered_groups_build (entries : list text) (g : text) :
  g ∈ ordered_groups (build_groups entries) ↔
  ∃ e, e ∈ entries ∧ startswith prefix e = true ∧ group_of e = g.
Proof.
  rewrite ordered_groups_elem. unfold build_groups.
  rewrite fold_add_entry_keys, members_not_nil. unfold keys at 1. cbn [map].
  rewrite elem_of_nil. tauto.
Qed.

(** X1. What the renderer writes, without the dict: after the header, the
    helper entry and a blank line comes one sub-block per group, each a
    comment line with the group, the entries of that group that have the
    prefix in sorted order, one per line and each as often as it was given,
    and a blank line; then the closing delimiter.  A group is listed once,
    exactly when an entry with the prefix belongs to it; [core] comes first
    when it is listed, and the other groups follow in sorted order. *)
Theorem format_zig_array_by_groups (entries : list text) :
  ∃ gs rest : list text,
    format_zig_array entries
    = join [NL]
        ([ZIG_ARRAY_HEADER;
          txt "    " ++ [DQUOTE] ++ txt "../../native/flecs_helpers.c" ++ [DQUOTE] ++ txt ",";
          []]
         ++ concat (map (λ g, (txt "    // " ++ g)
                              :: (map entry_line (sorted_text (members g entries))
                                  ++ [[]])) gs)
         ++ [txt "};"])
    ∧ NoDup gs
    ∧ (∀ g, g ∈ gs ↔ ∃ e, e ∈ entries ∧ startswith prefix e = true ∧ group_of e = g)
    ∧ (gs = rest ∨ gs = core :: rest)
    ∧ (core ∉ rest) ∧ Sorted text_le rest.
Proof.
  exists (ordered_groups (build_groups entries)),
         (sorted_text (filter (λ k, k ≠ core) (keys (build_groups entries)))).
  split; [|split; [|split; [|split; [|split]]]].
  - apply format_zig_array_lines.
  - apply ordered_groups_NoDup. unfold build_groups.
    apply fold_add_entry_NoDup, NoDup_nil_2.
  - apply ordered_groups_build.
  - unfold ordered_groups. destruct (decide (core ∈ keys (build_groups entries))); auto.
  - unfold sorted_text. rewrite merge_sort_Permutation, list_elem_of_filter.
    intros [Hne _]. now apply Hne.
  - apply Sorted_merge_sort, _.
Qed.

(** X3. The block does not depend on the order in which the entries are
    given. *)
Theorem format_zig_array_order_irrelevant (l1 l2 : list text) :
  l1 ≡ₚ l2 → format_zig_array l1 = format_zig_array l2.
Proof.
  intros H. now apply format_zig_array_perm.
Qed.

Lemma format_zig_array_order_irrelevant_witness :
  format_zig_array mixed_entries = format_zig_array (reverse mixed_entries).
Proof.
  apply format_zig_array_order_irrelevant. symmetry. apply reverse_Permutation.
Defined.

(** ** The rendered block and the pattern *)

Lemma contains_spec (x s : text) : contains x s = true ↔ ∃ a b, s = a ++ x ++ b.
Proof.
  induction s as [|c s IH].
  - cbn [contains]. rewrite orb_false_r, startswith_spec. split.
    + intros [r Hr]. exists [], r. exact Hr.
    + intros (a & b & E). symmetry in E. apply app_eq_nil in E as [-> E].
      exists b. now symmetry.
  - cbn [contains]. rewrite orb_true_iff, startswith_spec, IH. split.
    + intros [[r Hr]|(a & b & ->)].
      * exists [], r. exact Hr.
      * exists (c :: a), b. reflexivity.
    + intros ([|c' a] & b & E).
      * left. exists b. exact E.
      * injection E as -> ->. right. eauto.
Qed.

Lemma join_cons (sep x : text) (xs : list text) :
  xs ≠ [] → join sep (x :: xs) = x ++ sep ++ join sep xs.
Proof. destruct xs; [congruence|reflexivity]. Qed.

Lemma join_snoc (sep c : text) (xs : list text) :
  xs ≠ [] → join sep (xs ++ [c]) = join sep xs ++ sep ++ c.
Proof.
  induction xs as [|x xs IH]; [congruence|]. intros _.
  destruct xs as [|y xs]; [reflexivity|].
  change ((x :: y :: xs) ++ [c]) with (x :: (y :: xs) ++ [c]).
  rewrite !join_cons by (try discriminate; destruct xs; discriminate).
  rewrite IH by discriminate. now rewrite <- !app_assoc.
Qed.

Lemma join_with_newlines (ls : list text) :
  ls ≠ [] → NL :: join [NL] ls = with_newlines ls.
Proof.
  unfold with_newlines. induction ls as [|l ls IH]; [congruence|]. intros _.
  destruct ls as [|l' ls].
  - cbn. now rewrite app_nil_r.
  - rewrite join_cons by discriminate.
    change (concat (map (cons NL) (l :: l' :: ls)))
      with ((NL :: l) ++ concat (map (cons NL) (l' :: ls))).
    rewrite <- IH by discriminate. reflexivity.
Qed.

Lemma elem_of_concat {A} (x : A) (ls : list (list A)) :
  x ∈ concat ls ↔ ∃ l, x ∈ l ∧ l ∈ ls.
Proof.
  rewrite list_elem_of_In, in_concat. split.
  - intros (l & H1 & H2). exists l. now rewrite !list_elem_of_In.
  - intros (l & H1 & H2). exists l. now rewrite <- !list_elem_of_In.
Qed.

(** A block is the header, its middle lines, and the closing delimiter. *)
Lemma rendered_shape (entries : list text) :
  ∃ mid : list text,
    format_zig_array entries ++ [NL] = ZIG_ARRAY_HEADER ++ with_newlines mid ++ CLOSING
    ∧ ∀ l, l ∈ mid →
        l = txt "    " ++ [DQUOTE] ++ txt "../../native/flecs_helpers.c" ++ [DQUOTE] ++ txt ","
        ∨ l = []
        ∨ (∃ e, e ∈ entries ∧ startswith prefix e = true
                ∧ (l = txt "    // " ++ group_of e ∨ l = entry_line e)).
Proof.
  rewrite format_zig_array_lines.
  set (grp := concat (map _ (ordered_groups (build_groups entries)))).
  exists ([txt "    " ++ [DQUOTE] ++ txt "../../native/flecs_helpers.c" ++ [DQUOTE] ++ txt ",";
           []] ++ grp).
  split.
  - change ([ZIG_ARRAY_HEADER; ?a; ?b] ++ grp ++ [txt "};"])
      with (ZIG_ARRAY_HEADER :: ([a; b] ++ grp) ++ [txt "};"]).
    rewrite join_cons by discriminate. rewrite join_snoc by discriminate.
    rewrite <- join_with_newlines by discriminate.
    rewrite <- !app_assoc. reflexivity.
  - intros l Hl. apply elem_of_app in Hl as [Hl|Hl].
    + apply elem_of_cons in Hl as [->|Hl]; [auto|].
      apply list_elem_of_singleton in Hl as ->. auto.
    + subst grp. apply elem_of_concat in Hl as (ls & Hl & Hls).
      apply list_elem_of_fmap in Hls as (g & -> & Hg).
      apply ordered_groups_build in Hg as (e & He & Hp & <-).
      apply elem_of_cons in Hl as [->|Hl]; [right; right; eauto|].
      apply elem_of_app in Hl as [Hl|Hl].
      * apply list_elem_of_fmap in Hl as (e' & -> & He').
        unfold sorted_text in He'. rewrite merge_sort_Permutation in He'.
        apply list_elem_of_filter in He' as [[Hp' _] He'']. right; right; eauto.
      * apply list_elem_of_singleton in Hl as ->. auto.
Qed.

Lemma is_block_header (body : text) :
  first_closing body → is_block (ZIG_ARRAY_HEADER ++ body ++ CLOSING).
Proof.
  intros H. exists [32], [32], [32], [32], body.
  repeat split; try (repeat constructor; fail); try discriminate; assumption.
Qed.

Lemma first_closing_nil : first_closing [].
Proof.
  intros b1 b2 E. apply (f_equal length) in E. rewrite !length_app in E.
  cbn in E. destruct b2; [reflexivity|]. cbn in E. lia.
Qed.

(** Where the closing delimiter occurs, it occurs for a first time. *)
Lemma first_closing_exists (a b : text) :
  ∃ body rest, a ++ CLOSING ++ b = body ++ CLOSING ++ rest ∧ first_closing body.
Proof.
  induction a as [|x a IH].
  - exists [], b. split; [reflexivity|apply first_closing_nil].
  - destruct IH as (body & rest & E & Hf).
    destruct (startswith CLOSING (x :: a ++ CLOSING ++ b)) eqn:Es.
    + apply startswith_spec in Es as [r Hr]. exists [], r.
      split; [exact Hr|apply first_closing_nil].
    + exists (x :: body), rest. split; [cbn [app]; now rewrite E|].
      intros [|y b1] b2 E2.
      * exfalso. cbn [app] in E2.
        assert (Hs : startswith CLOSING (x :: a ++ CLOSING ++ b) = true).
        { apply startswith_spec. exists (b2 ++ rest).
          rewrite E, (app_assoc CLOSING), <- E2. cbn [app].
          now rewrite <- app_assoc. }
        congruence.
      * injection E2 as _ E2. exact (Hf b1 b2 E2).
Qed.

Lemma rendered_starts_block (entries : list text) (rest : text) :
  starts_block (format_zig_array entries ++ NL :: rest).
Proof.
  destruct (rendered_shape entries) as (mid & E & _).
  destruct (first_closing_exists (with_newlines mid) rest) as (body & rest' & E' & Hf).
  exists (ZIG_ARRAY_HEADER ++ body ++ CLOSING), rest'.
  split; [|now apply is_block_header].
  change (NL :: rest) with ([NL] ++ rest). rewrite app_assoc, E.
  rewrite <- !app_assoc. f_equal. exact E'.
Qed.

Lemma replace_block_ok_clean (s blk out : text) :
  replace_block s blk = Ok out → BACKSLASH ∉ blk.
Proof.
  unfold replace_block, subn, compile_template.
  destruct (bool_decide (BACKSLASH ∈ blk ++ [NL; NL])) eqn:E; [discriminate|].
  intros _ Hin. apply bool_decide_eq_false in E. apply E, elem_of_app. now left.
Qed.

(** X4. A rendered block is recognized by the pattern: a text that holds a
    block of the renderer, followed by a newline, is never rejected with the
    pattern-not-found error, whatever the entries and whatever surrounds the
    block. *)
Theorem rendered_block_recognized (entries : list text) (pre post blk : text) :
  BACKSLASH ∉ blk →
  has_block (pre ++ format_zig_array entries ++ NL :: post)
  ∧ ∃ out, replace_block (pre ++ format_zig_array entries ++ NL :: post) blk = Ok out.
Proof.
  intros Hc.
  assert (Hb : has_block (pre ++ format_zig_array entries ++ NL :: post)).
  { exists pre, (format_zig_array entries ++ NL :: post).
    split; [reflexivity|apply rendered_starts_block]. }
  split; [exact Hb|]. now apply replace_block_found.
Qed.

Lemma rendered_block_recognized_witness :
  ∃ out,
    replace_block (wrapper_head ++ format_zig_array mixed_entries ++ NL :: wrapper_tail)
      bare_block = Ok out.
Proof.
  destruct (rendered_block_recognized mixed_entries wrapper_head wrapper_tail bare_block)
    as [_ H].
  - apply (bool_decide_unpack _). vm_compute. exact I.
  - exact H.
Defined.

(** X5. A text that the patcher has produced can be patched again: it holds
    a block, so a further patch, with any rendered block, does not fail. *)
Theorem patched_text_has_block (s out : text) (entries : list text) :
  replace_block s (format_zig_array entries) = Ok out →
  has_block out
  ∧ ∀ blk, BACKSLASH ∉ blk → ∃ out', replace_block out blk = Ok out'.
Proof.
  intros H. pose proof (replace_block_ok_clean _ _ _ H) as Hc.
  assert (Hb : has_block out).
  { destruct (has_block_leftmost s (has_block_of_ok _ _ _ Hc H))
      as (pre & m & post & -> & Hl).
    rewrite (replace_block_leftmost pre m post _ Hc Hl) in H. injection H as <-.
    exists pre, (format_zig_array entries ++ [NL; NL] ++
                 match replace_block post (format_zig_array entries) with
                 | Ok post' => post'
                 | Raise _ => post
                 end).
    split; [reflexivity|]. apply rendered_starts_block. }
  split; [exact Hb|]. intros blk Hblk. now apply replace_block_found.
Qed.

Lemma patched_text_has_block_witness :
  ∃ out', replace_block patched_once bare_block = Ok out'.
Proof.
  destruct (patched_text_has_block old_build patched_once
              (map (entry_of repo) (sorted_paths (rglob_paths (txt ".c") (src_root repo) repo_fs))))
    as [_ H].
  - vm_compute. reflexivity.
  - apply H. apply (bool_decide_unpack _). vm_compute. exact I.
Defined.

(** ** Round trip: render, wrap, patch *)

Lemma prefix_no_sep (l u b v : text) :
  NL ∉ l → l ++ NL :: u = b ++ NL :: v → ∃ b', b = l ++ b' ∧ NL :: u = b' ++ NL :: v.
Proof.
  revert b; induction l as [|c l IH]; intros b Hl E.
  - exists b. auto.
  - apply not_elem_of_cons in Hl as [Hc Hl]. destruct b as [|c' b].
    + cbn [app] in E. injection E as -> _. congruence.
    + cbn [app] in E. injection E as <- E.
      destruct (IH b Hl E) as (b' & -> & E'). exists b'. auto.
Qed.

Lemma split_unique (l x u v : text) :
  NL ∉ l → NL ∉ x → l ++ NL :: u = x ++ NL :: v → l = x ∧ u = v.
Proof.
  intros Hl Hx E.
  destruct (prefix_no_sep l u x v Hl E) as (b' & -> & E').
  destruct b' as [|c b'].
  - rewrite app_nil_r. cbn [app] in E'. injection E' as ->. auto.
  - cbn [app] in E'. injection E' as <- _.
    exfalso. apply Hx, elem_of_app. right. apply list_elem_of_here.
Qed.

Lemma with_newlines_head (ls : list text) : ∃ u, with_newlines ls ++ [NL] = NL :: u.
Proof. destruct ls; cbn; eauto. Qed.

(** In a text made of lines, a line between two newlines is one of the
    lines. *)
Lemma occurrence_is_line (ls : list text) (x b1 b2 : text) :
  Forall (λ l, NL ∉ l) ls → NL ∉ x →
  with_newlines ls ++ [NL] = b1 ++ NL :: x ++ NL :: b2 →
  ∃ l1 l2, ls = l1 ++ x :: l2 ∧ NL :: b2 = with_newlines l2 ++ [NL].
Proof.
  intros Hls Hx. revert b1. induction Hls as [|l ls Hl Hls IH]; intros b1 E.
  - exfalso. apply (f_equal length) in E. cbn in E.
    rewrite length_app in E. cbn in E. rewrite length_app in E. cbn in E. lia.
  - change (with_newlines (l :: ls)) with ((NL :: l) ++ with_newlines ls) in E.
    rewrite <- app_assoc in E. cbn [app] in E.
    destruct (with_newlines_head ls) as [u Hu]. rewrite Hu in E.
    destruct b1 as [|c b1].
    + cbn [app] in E. injection E as E.
      destruct (split_unique l x u b2 Hl Hx E) as [-> ->].
      exists [], ls. split; [reflexivity|]. now symmetry.
    + cbn [app] in E. injection E as <- E.
      destruct (prefix_no_sep l u b1 (x ++ NL :: b2) Hl E) as (b' & -> & E').
      rewrite <- Hu in E'. destruct (IH b' E') as (l1 & l2 & -> & H2).
      exists (l :: l1), l2. auto.
Qed.

Lemma snoc_exists {A} (y : A) (l : list A) : ∃ l' z, y :: l = l' ++ [z].
Proof.
  revert y; induction l as [|x l IH]; intros y.
  - exists [], y. reflexivity.
  - destruct (IH x) as (l' & z & E). exists (y :: l'), z. now rewrite E.
Qed.

Lemma first_closing_lines (ls : list text) :
  Forall inner_line ls → first_closing (with_newlines ls).
Proof.
  intros H b1 b2 E.
  assert (E' : with_newlines (ls ++ [txt "};"]) ++ [NL]
               = b1 ++ NL :: txt "};" ++ NL :: b2).
  { unfold with_newlines in *. rewrite map_app, concat_app. cbn [map concat].
    rewrite app_nil_r, <- app_assoc. exact E. }
  apply occurrence_is_line in E' as (l1 & l2 & Els & Hb2).
  - destruct l2 as [|y l2]; [cbn in Hb2; now injection Hb2|exfalso].
    assert (Hin : txt "};" ∈ ls).
    { destruct (snoc_exists y l2) as (l2' & z & Ez).
      rewrite Ez in Els.
      change (l1 ++ txt "};" :: l2' ++ [z]) with (l1 ++ (txt "};" :: l2') ++ [z]) in Els.
      rewrite app_assoc in Els. apply app_inj_tail in Els as [-> _].
      apply elem_of_app. right. apply list_elem_of_here. }
    rewrite Forall_forall in H. destruct (H _ Hin) as [_ Hne]. congruence.
  - apply Forall_app. split.
    + eapply Forall_impl; [exact H|]. now intros l [? _].
    + repeat constructor. apply (bool_decide_unpack _). vm_compute. exact I.
  - apply (bool_decide_unpack _). vm_compute. exact I.
Qed.

Lemma free_drop (c : N) (n : nat) (t : text) : c ∉ t → c ∉ drop n t.
Proof.
  intros H Hin. apply H. rewrite <- (take_drop n t). apply elem_of_app. now right.
Qed.

Lemma free_split (c sep : N) (t : text) : c ∉ t → Forall (λ w, c ∉ w) (split sep t).
Proof.
  induction t as [|x t IH]; intros H.
  - repeat constructor. apply not_elem_of_nil.
  - apply not_elem_of_cons in H as [Hx Ht]. specialize (IH Ht). cbn [split].
    destruct (x =? sep).
    + constructor; [apply not_elem_of_nil|exact IH].
    + destruct (split sep t) as [|w ws].
      * repeat constructor. apply not_elem_of_cons. split; [exact Hx|apply not_elem_of_nil].
      * inversion IH; subst. constructor; [|assumption]. apply not_elem_of_cons. auto.
Qed.

Lemma free_group_of (c : N) (e : text) : c ∉ core → c ∉ e → c ∉ group_of e.
Proof.
  intros Hc He. unfold group_of.
  destruct (length (split SLASH (drop (length prefix) e)) =? 1)%nat; [exact Hc|].
  pose proof (free_split c SLASH _ (free_drop c (length prefix) e He)) as HF.
  destruct HF; [apply not_elem_of_nil|assumption].
Qed.

Lemma rendered_inner_lines (entries : list text) :
  Forall (λ e, NL ∉ e) entries →
  ∃ mid, format_zig_array entries ++ [NL]
         = ZIG_ARRAY_HEADER ++ with_newlines mid ++ CLOSING
         ∧ Forall inner_line mid.
Proof.
  intros Hnl. destruct (rendered_shape entries) as (mid & E & Hmid).
  exists mid. split; [exact E|]. apply Forall_forall. intros l Hl.
  rewrite Forall_forall in Hnl.
  destruct (Hmid l Hl) as [->|[->|(e & He & _ & [->| ->])]].
  - split; [apply (bool_decide_unpack _); vm_compute; exact I|discriminate].
  - split; [apply not_elem_of_nil|discriminate].
  - split.
    + rewrite elem_of_app. intros [H|H].
      * revert H. apply (bool_decide_unpack _). vm_compute. exact I.
      * revert H. apply free_group_of; [|now apply Hnl].
        apply (bool_decide_unpack _). vm_compute. exact I.
    + intros E'. apply (f_equal (hd 0)) in E'. vm_compute in E'. discriminate.
  - split.
    + unfold entry_line. rewrite !elem_of_app.
      intros [H|[H|[H|[H|[H|H]]]]]; try (revert H; apply (bool_decide_unpack _);
                                         vm_compute; exact I).
      now apply (Hnl e He).
    + intros E'. apply (f_equal (hd 0)) in E'. vm_compute in E'. discriminate.
Qed.

(** With entries that hold no newline, the block and the newline behind it
    are one match of the pattern, from the header to the last line. *)
Lemma rendered_is_block (entries : list text) :
  Forall (λ e, NL ∉ e) entries → is_block (format_zig_array entries ++ [NL]).
Proof.
  intros H. destruct (rendered_inner_lines entries H) as (mid & -> & Hmid).
  apply is_block_header, first_closing_lines, Hmid.
Qed.

Lemma is_block_const (m : text) : is_block m → ∃ r, m = txt "const" ++ r.
Proof. intros (w1 & w2 & w3 & w4 & body & _ & _ & _ & _ & _ & _ & _ & ->). eauto. Qed.

Lemma no_const_no_block (s : text) : contains (txt "const") s = false → ¬ has_block s.
Proof.
  intros H (pre & rest & -> & m & rest' & -> & Hm).
  apply is_block_const in Hm as [r ->].
  assert (Hc : contains (txt "const") (pre ++ (txt "const" ++ r) ++ rest') = true).
  { apply contains_spec. exists pre, (r ++ rest'). now rewrite <- app_assoc. }
  congruence.
Qed.

(** No block starts in a text without [const] that stands before a text
    that starts with [const]. *)
Lemma no_const_no_start (pre p1 p2 t : text) :
  contains (txt "const") pre = false → pre = p1 ++ p2 → p2 ≠ [] →
  ¬ starts_block (p2 ++ txt "const" ++ t).
Proof.
  intros H -> Hne (m & rest & E & Hm). apply is_block_const in Hm as [r ->].
  destruct p2 as [|a [|b [|c [|d [|e p2]]]]]; [congruence| | | | |];
    vm_compute in E; simplify_eq.
  assert (Hc : contains (txt "const") (p1 ++ txt "const" ++ p2) = true)
    by (apply contains_spec; eauto).
  change (txt "const" ++ p2) with (99 :: 111 :: 110 :: 115 :: 116 :: p2) in Hc.
  congruence.
Qed.

(** X6. Round trip: with entries that hold no newline, a rendered block
    that is put between a text before and a text behind that do not hold the
    word [const] is found by the patcher as one match, from its header to
    its last line and the newline behind it; that region is replaced by the
    new block and two newlines, and both surrounding texts are kept. *)
Theorem render_wrap_patch (entries : list text) (pre post blk : text) :
  Forall (λ e, NL ∉ e) entries → BACKSLASH ∉ blk →
  contains (txt "const") pre = false → contains (txt "const") post = false →
  is_block (format_zig_array entries ++ [NL])
  ∧ replace_block (pre ++ format_zig_array entries ++ NL :: post) blk
    = Ok (pre ++ blk ++ [NL; NL] ++ post).
Proof.
  intros Hnl Hc Hpre Hpost.
  pose proof (rendered_is_block entries Hnl) as Hb. split; [exact Hb|].
  assert (Hl : leftmost pre (format_zig_array entries ++ [NL]) post).
  { split; [exact Hb|]. intros p1 p2 Hp Hne.
    destruct (is_block_const _ Hb) as [r Hr]. rewrite Hr, <- app_assoc.
    now apply (no_const_no_start pre p1 p2). }
  pose proof (replace_block_leftmost pre _ post blk Hc Hl) as H.
  rewrite (proj2 (replace_block_not_found post blk Hc) (no_const_no_block post Hpost)) in H.
  rewrite <- app_assoc in H. exact H.
Qed.

Lemma render_wrap_patch_witness :
  replace_block (wrapper_head ++ format_zig_array mixed_entries ++ NL :: wrapper_tail)
    bare_block
  = Ok (wrapper_head ++ bare_block ++ [NL; NL] ++ wrapper_tail).
Proof.
  apply (render_wrap_patch mixed_entries wrapper_head wrapper_tail bare_block).
  - apply (bool_decide_unpack _). vm_compute. exact I.
  - apply (bool_decide_unpack _). vm_compute. exact I.
  - vm_compute. reflexivity.
  - vm_compute. reflexivity.
Defined.

(** X7. What the pattern matches: at the start of a text the matcher
    succeeds exactly when a block starts there, that is the header with its
    runs of white space, any text, and the first closing delimiter; it
    returns the length of that block, and no other block starts there. *)
Theorem pattern_matches_blocks (s : text) :
  (∀ n, match_here PATTERN s = Some n ↔
        ∃ m rest, s = m ++ rest ∧ length m = n ∧ is_block m)
  ∧ (∀ m1 r1 m2 r2,
       s = m1 ++ r1 → s = m2 ++ r2 → is_block m1 → is_block m2 → m1 = m2).
Proof.
  split; [intros n; apply match_here_block|].
  intros m1 r1 m2 r2 E1 E2 H1 H2.
  assert (N1 : match_here PATTERN s = Some (length m1))
    by (apply match_here_block; eauto).
  assert (N2 : match_here PATTERN s = Some (length m2))
    by (apply match_here_block; eauto).
  rewrite N1 in N2. injection N2 as Hlen.
  rewrite E1 in E2. apply app_inj_1 in E2 as [? _]; assumption.
Qed.

Lemma pattern_matches_blocks_witness :
  match_here PATTERN (minimal_block ++ wrapper_tail) = Some (length minimal_block).
Proof.
  destruct (pattern_matches_blocks (minimal_block ++ wrapper_tail)) as [H _].
  apply H. exists minimal_block, wrapper_tail.
  split; [reflexivity|]. split; [reflexivity|]. exact minimal_block_is_block.
Defined.

Lemma is_block_closing (m : text) : is_block m → ∃ a, m = a ++ CLOSING.
Proof.
  intros (w1 & w2 & w3 & w4 & body & _ & _ & _ & _ & _ & _ & _ & ->).
  eexists. rewrite !app_assoc. reflexivity.
Qed.

Lemma no_closing_no_block (s : text) : contains CLOSING s = false → ¬ has_block s.
Proof.
  intros H (pre & rest & -> & m & rest' & -> & Hm).
  apply is_block_closing in Hm as [a ->].
  assert (Hc : contains CLOSING (pre ++ (a ++ CLOSING) ++ rest') = true).
  { apply contains_spec. exists (pre ++ a), rest'. now rewrite <- !app_assoc. }
  congruence.
Qed.

(** X8. A text without the word [const], or without a line [};] that a
    newline follows, is rejected with the pattern-not-found error: so is, for
    one, a file whose array is closed by [};] at the very end of the file,
    with no newline behind it. *)
Theorem missing_delimiter_not_found (s blk : text) :
  BACKSLASH ∉ blk →
  contains (txt "const") s = false ∨ contains CLOSING s = false →
  replace_block s blk = Raise NOT_FOUND.
Proof.
  intros Hc H. apply (replace_block_not_found s blk Hc).
  destruct H as [H|H]; [now apply no_const_no_block|now apply no_closing_no_block].
Qed.

Lemma missing_delimiter_not_found_witness :
  replace_block unterminated bare_block = Raise NOT_FOUND.
Proof.
  apply missing_delimiter_not_found.
  - apply (bool_decide_unpack _). vm_compute. exact I.
  - right. vm_compute. reflexivity.
Defined.

(** ** The transitions of the orchestrator *)

Section Transitions.

Variable REPO_ROOT : path.

(** X10. Apply is impossible: when the source root exists but neither the
    build file nor its backup does, the run prints the block, ends with
    [SystemExit] and the message that names both paths, hence with a
    non-zero status, and leaves the file system as it is. *)
Theorem apply_impossible (r : path) (w : world) :
  is_Some (fs w !! src_root r) →
  fs w !! build_path_of r = None → fs w !! backup_path_of r = None →
  main REPO_ROOT (applying r) w
  = (Raise (SystemExit (impossible_message r)),
     {| fs := fs w; stdout := stdout w ++ [generated_of REPO_ROOT r (fs w)]; io := io w |})
  ∧ exit_status (main REPO_ROOT (applying r) w).1 ≠ 0%Z.
Proof.
  intros [n Hn] Hb Hk.
  assert (Hm : main REPO_ROOT (applying r) w
               = (Raise (SystemExit (impossible_message r)),
                  {| fs := fs w; stdout := stdout w ++ [generated_of REPO_ROOT r (fs w)];
                     io := io w |})).
  { rewrite (main_apply_run REPO_ROOT r w n Hn).
    unfold mbind, M_bind, bind at 1. unfold choose_input, mbind, M_bind, bind, exists_.
    cbn [fs].
    rewrite bool_decide_eq_false_2 by (rewrite Hb; intros [? ?]; discriminate).
    cbn [fs].
    rewrite bool_decide_eq_false_2 by (rewrite Hk; intros [? ?]; discriminate).
    reflexivity. }
  split; [exact Hm|]. rewrite Hm. discriminate.
Qed.

(** X11. A fresh apply overwrites the backup: when the build file is a file
    with a block, whatever file was at the backup path is replaced by the
    build file as it was, the patched text is written to the build file, the
    confirmation line is printed, and no other path changes. *)
Theorem fresh_apply_overwrites_backup (r : path) (w : world) (t0 : text) :
  io w = no_faults →
  is_Some (fs w !! src_root r) →
  fs w !! build_path_of r = Some (File t0) →
  fs w !! backup_path_of r ≠ Some Dir →
  has_block t0 →
  ∃ t1 w',
    main REPO_ROOT (applying r) w = (Ok tt, w')
    ∧ replace_block t0 (generated_of REPO_ROOT r (fs w)) = Ok t1
    ∧ fs w' !! build_path_of r = Some (File t1)
    ∧ fs w' !! backup_path_of r = Some (File t0)
    ∧ (∀ p, p ≠ build_path_of r → p ≠ backup_path_of r → fs w' !! p = fs w !! p)
    ∧ stdout w' = stdout w ++ [generated_of REPO_ROOT r (fs w); applied_message r].
Proof.
  intros Hio [n Hn] Hb Hk Hblock.
  destruct (replace_block_found t0 _ (generated_of_clean REPO_ROOT r (fs w)) Hblock)
    as [t1 Ht1].
  assert (Hbk : build_path_of r ≠ backup_path_of r) by apply build_ne_backup.
  exists t1. eexists. split; [|split; [|split; [|split; [|split]]]].
  - apply (apply_fresh_run REPO_ROOT r w t0 t1 n); try assumption;
      rewrite Hio; reflexivity.
  - exact Ht1.
  - cbn [fs]. apply lookup_insert_eq.
  - cbn [fs]. rewrite lookup_insert_ne by assumption. apply lookup_insert_eq.
  - intros p H1 H2. cbn [fs].
    now rewrite !lookup_insert_ne, lookup_delete_ne by congruence.
  - cbn [stdout]. now rewrite <- app_assoc.
Qed.

(** X12. Apply from the backup: when the build file is absent and the backup
    is a file with a block, the run patches the text of the backup, writes
    it to the build file and succeeds; the backup and every other path stay
    as they are. *)
Theorem apply_from_backup (r : path) (w : world) (t0 : text) :
  io w = no_faults →
  is_Some (fs w !! src_root r) →
  fs w !! build_path_of r = None →
  fs w !! backup_path_of r = Some (File t0) →
  has_block t0 →
  ∃ t1 w',
    main REPO_ROOT (applying r) w = (Ok tt, w')
    ∧ replace_block t0 (generated_of REPO_ROOT r (fs w)) = Ok t1
    ∧ fs w' !! build_path_of r = Some (File t1)
    ∧ (∀ p, p ≠ build_path_of r → fs w' !! p = fs w !! p)
    ∧ stdout w' = stdout w ++ [generated_of REPO_ROOT r (fs w); applied_message r].
Proof.
  intros Hio [n Hn] Hb Hk Hblock.
  destruct (replace_block_found t0 _ (generated_of_clean REPO_ROOT r (fs w)) Hblock)
    as [t1 Ht1].
  exists t1. eexists. split; [|split; [|split; [|split]]].
  - apply (apply_from_backup_run REPO_ROOT r w t0 t1 n); try assumption;
      rewrite Hio; reflexivity.
  - exact Ht1.
  - cbn [fs]. apply lookup_insert_eq.
  - intros p Hp. cbn [fs]. now rewrite lookup_insert_ne by congruence.
  - cbn [stdout]. now rewrite <- app_assoc.
Qed.

(** X13. A backup without a block: when the build file is absent and the
    backup is a file that holds no block, the run prints the block and fails
    with the pattern-not-found error, and the file system is what it was:
    the backup is in place and no build file has appeared. *)
Theorem apply_from_backup_not_found (r : path) (w : world) (t : text) :
  is_Some (fs w !! src_root r) →
  read_fault (io w) (backup_path_of r) = None →
  fs w !! build_path_of r = None →
  fs w !! backup_path_of r = Some (File t) →
  ¬ has_block t →
  main REPO_ROOT (applying r) w
  = (Raise NOT_FOUND,
     {| fs := fs w; stdout := stdout w ++ [generated_of REPO_ROOT r (fs w)]; io := io w |}).
Proof.
  intros [n Hn] Hread Hb Hk Hnb.
  rewrite (main_apply_run REPO_ROOT r w n Hn).
  unfold mbind, M_bind, bind at 1.
  rewrite choose_input_from_backup by (cbn [fs]; eauto).
  unfold guarded_patch, try_except, mbind, M_bind, bind at 1.
  rewrite patch_run with (t := t); [|exact Hread|exact Hk].
  now rewrite (proj2 (replace_block_not_found t _ (generated_of_clean REPO_ROOT r (fs w))) Hnb).
Qed.

(** X14. A source root that is a file: it exists, so discovery does not
    fail, and it has nothing below it; the discoverer returns no entry and a
    run without [--apply] prints the block without any group. *)
Theorem source_root_is_file (r : path) (w : world) (t : text) :
  fs w !! src_root r = Some (File t) →
  find_c_files REPO_ROOT (src_root r) w = (Ok [], w)
  ∧ main REPO_ROOT {| root := r; apply := false |} w
    = (Ok tt, {| fs := fs w; stdout := stdout w ++ [bare_block]; io := io w |}).
Proof.
  intros H. split.
  - rewrite find_c_files_run, H. unfold rglob_paths. rewrite H. reflexivity.
  - rewrite main_dry_run, H. unfold rglob_paths. rewrite H. reflexivity.
Qed.

End Transitions.

Lemma apply_impossible_witness :
  main repo (applying other) other_world
  = (Raise (SystemExit (impossible_message other)),
     {| fs := other_fs; stdout := [] ++ [generated_of repo other other_fs];
        io := no_faults |}).
Proof.
  apply (apply_impossible repo other other_world).
  - exists Dir. vm_compute. reflexivity.
  - vm_compute. reflexivity.
  - vm_compute. reflexivity.
Defined.

Lemma fresh_apply_overwrites_backup_witness :
  ∃ t1 w',
    main repo (applying repo) stale_world = (Ok tt, w')
    ∧ fs w' !! build_path_of repo = Some (File t1)
    ∧ fs w' !! backup_path_of repo = Some (File old_build).
Proof.
  destruct (fresh_apply_overwrites_backup repo repo stale_world old_build)
    as (t1 & w' & H1 & _ & H2 & H3 & _).
  - reflexivity.
  - exists Dir. vm_compute. reflexivity.
  - vm_compute. reflexivity.
  - vm_compute. discriminate.
  - exact old_build_has_block.
  - exists t1, w'. auto.
Defined.

Lemma apply_from_backup_witness :
  ∃ t1 w',
    main repo (applying repo) backup_only_world = (Ok tt, w')
    ∧ fs w' !! build_path_of repo = Some (File t1)
    ∧ fs w' !! backup_path_of repo = Some (File old_build).
Proof.
  destruct (apply_from_backup repo repo backup_only_world old_build)
    as (t1 & w' & H1 & _ & H2 & H3 & _).
  - reflexivity.
  - exists Dir. vm_compute. reflexivity.
  - vm_compute. reflexivity.
  - apply lookup_insert_eq.
  - exact old_build_has_block.
  - exists t1, w'. split; [exact H1|]. split; [exact H2|].
    rewrite H3 by (intros E; symmetry in E; now apply build_ne_backup in E).
    apply lookup_insert_eq.
Defined.

Lemma apply_from_backup_not_found_witness :
  (main repo (applying repo) plain_backup_world).1 = Raise NOT_FOUND.
Proof.
  rewrite (apply_from_backup_not_found repo repo plain_backup_world plain_build).
  - reflexivity.
  - exists Dir. vm_compute. reflexivity.
  - reflexivity.
  - vm_compute. reflexivity.
  - apply lookup_insert_eq.
  - exact plain_build_no_block.
Defined.

Lemma source_root_is_file_witness :
  find_c_files repo (src_root repo) file_root_world = (Ok [], file_root_world).
Proof.
  destruct (source_root_is_file repo repo file_root_world (txt "not a directory")) as [H _].
  - vm_compute. reflexivity.
  - exact H.
Defined.

(** ** What a run leaves alone, and what it prints *)

Lemma choose_input_keeps (build backup : path) (w w1 : world) (r : result path) :
  choose_input build backup w = (r, w1) →
  stdout w1 = stdout w ∧ io w1 = io w
  ∧ (fs w !! build ≠ Some Dir →
     ∀ p, p ≠ build → p ≠ backup → fs w1 !! p = fs w !! p).
Proof.
  unfold choose_input, mbind, M_bind, bind. rewrite exists_run.
  destruct (fs w !! build) as [n|] eqn:Eb.
  - rewrite bool_decide_eq_true_2 by eauto. unfold replace.
    destruct (replace_fault (io w) build backup); [intros [= <- <-]; auto|].
    rewrite Eb. destruct n as [t|].
    + destruct (fs w !! backup) as [[t'|]|] eqn:Ek; intros [= <- <-];
        cbn [fs io stdout set_fs]; (split; [reflexivity|split; [reflexivity|]]);
        intros _ p H1 H2; rewrite ?lookup_insert_ne, ?lookup_delete_ne by congruence;
        reflexivity.
    + destruct (fs w !! backup) as [[t'|]|] eqn:Ek;
        [|destruct (has_children backup (fs w))|]; intros [= <- <-];
        cbn [fs io stdout set_fs]; (split; [reflexivity|split; [reflexivity|]]);
        intros H; now destruct H.
  - rewrite bool_decide_eq_false_2 by (intros [? ?]; discriminate).
    rewrite exists_run. destruct (fs w !! backup) as [n|] eqn:Ek.
    + rewrite bool_decide_eq_true_2 by eauto. intros [= <- <-]. auto.
    + rewrite bool_decide_eq_false_2 by (intros [? ?]; discriminate).
      intros [= <- <-]. auto.
Qed.

Lemma patch_ok_keeps (input output : path) (blk : text) (w w2 : world) :
  replace_block_in_build_paths input output blk w = (Ok tt, w2) →
  stdout w2 = stdout w ∧ io w2 = io w ∧ ∀ p, p ≠ output → fs w2 !! p = fs w !! p.
Proof.
  unfold replace_block_in_build_paths, mbind, M_bind, bind, read_text, lift, write_text.
  destruct (read_fault (io w) input); [discriminate|].
  destruct (fs w !! input) as [[t|]|]; try discriminate.
  destruct (replace_block t blk) as [new|e]; [|discriminate].
  destruct (write_fault (io w) output new) as [[[partial|] e]|]; try discriminate.
  destruct (fs w !! output) as [[|]|]; try discriminate; intros [= <-];
    cbn [fs io stdout set_fs]; (split; [reflexivity|split; [reflexivity|]]);
    intros p Hp; now rewrite lookup_insert_ne.
Qed.

Lemma join_middle (sep x : text) (xs ys : list text) :
  xs ≠ [] → ys ≠ [] →
  join sep (xs ++ x :: ys) = join sep xs ++ sep ++ x ++ sep ++ join sep ys.
Proof.
  intros Hx Hy. induction xs as [|a xs IH]; [congruence|].
  destruct xs as [|a' xs].
  - cbn [app]. rewrite join_cons by discriminate. rewrite join_cons by assumption.
    reflexivity.
  - change ((a :: a' :: xs) ++ x :: ys) with (a :: ((a' :: xs) ++ x :: ys)).
    rewrite join_cons by (cbn [app]; discriminate).
    rewrite IH by discriminate.
    rewrite (join_cons sep a (a' :: xs)) by discriminate.
    now rewrite <- !app_assoc.
Qed.

Lemma sorted_text_elem (e : text) (l : list text) : e ∈ sorted_text l ↔ e ∈ l.
Proof. unfold sorted_text. now rewrite merge_sort_Permutation. Qed.

Lemma sorted_paths_elem (p : path) (l : list path) : p ∈ sorted_paths l ↔ p ∈ l.
Proof. unfold sorted_paths. now rewrite merge_sort_Permutation. Qed.

(** An entry with the prefix has its line in the block. *)
Lemma rendered_entry_line (entries : list text) (e : text) :
  e ∈ entries → startswith prefix e = true →
  ∃ a b, format_zig_array entries = a ++ NL :: entry_line e ++ NL :: b.
Proof.
  intros He Hp. rewrite format_zig_array_lines.
  match goal with
  | |- context [concat ?l] => assert (Hin : entry_line e ∈ concat l)
  end.
  { apply elem_of_concat.
    exists ((txt "    // " ++ group_of e)
            :: (map entry_line (sorted_text (members (group_of e) entries)) ++ [[]])).
    split.
    - apply list_elem_of_further, elem_of_app. left.
      apply list_elem_of_In, in_map, list_elem_of_In, sorted_text_elem.
      unfold members. apply list_elem_of_filter. auto.
    - apply list_elem_of_In.
      apply (in_map (λ g, (txt "    // " ++ g)
                          :: (map entry_line (sorted_text (members g entries)) ++ [[]]))).
      apply list_elem_of_In, ordered_groups_build. eauto. }
  apply list_elem_of_split in Hin as (l1 & l2 & ->).
  match goal with
  | |- context [join _ (?h ++ (l1 ++ ?x :: l2) ++ ?c)] =>
      replace (h ++ (l1 ++ x :: l2) ++ c) with ((h ++ l1) ++ x :: (l2 ++ c))
        by (now rewrite <- !app_assoc)
  end.
  rewrite join_middle; [|discriminate|now destruct l2].
  eexists _, _. cbn [app]. reflexivity.
Qed.

Section Frame.

Variable REPO_ROOT : path.

(** X15. A run touches two paths at most: when the build path is not a
    directory, every path other than the build file and its backup holds
    after the run what it held before, whatever the mode, the outcome and
    the failures of the file system. *)
Theorem main_touches_two_paths (args : Args) (w : world) (p : path) :
  fs w !! build_path_of (root args) ≠ Some Dir →
  p ≠ build_path_of (root args) → p ≠ backup_path_of (root args) →
  fs (main REPO_ROOT args w).2 !! p = fs w !! p.
Proof.
  destruct args as [r [|]]; cbn [root]; intros Hd H1 H2.
  - change {| root := r; apply := true |} with (applying r).
    destruct (fs w !! src_root r) as [n|] eqn:Hn.
    + rewrite (main_apply_run REPO_ROOT r w n Hn).
      unfold mbind, M_bind, bind at 1.
      match goal with
      | |- context [choose_input ?b ?k ?w0] =>
          destruct (choose_input b k w0) as [[src|e] w1] eqn:Hc;
          pose proof (choose_input_keeps _ _ _ _ _ Hc) as (_ & _ & Hkeep)
      end.
      * apply choose_input_ok in Hc as (-> & Hnone & _ & _);
          [|apply build_ne_backup|apply build_backup_length].
        match goal with
        | |- context [guarded_patch ?i ?o ?k ?g ?w0] =>
            destruct (replace_block_in_build_paths i o g w0) as [[[]|e] w2] eqn:Hp
        end.
        -- rewrite (guarded_patch_ok _ _ (backup_path_of r) _ _ _ Hp). cbn [snd fs].
           apply patch_ok_keeps in Hp as (_ & _ & Hp). rewrite Hp by assumption.
           now apply Hkeep.
        -- destruct (guarded_patch_failure _ _ (backup_path_of r) _ _ _ _ Hnone Hp)
             as (w3 & -> & Hf & _).
           cbn [snd]. rewrite Hf by assumption. now apply Hkeep.
      * cbn [snd]. now apply Hkeep.
    + rewrite main_apply_steps.
      erewrite bind_raise by (rewrite find_c_files_run, Hn; reflexivity).
      reflexivity.
  - rewrite main_dry_run. destruct (fs w !! src_root r); reflexivity.
Qed.

(** X16. What a run prints: when the source root exists, the run adds the
    rendered block to the standard output first, in both modes and whatever
    happens afterwards, and then the confirmation line, that one exactly
    when the run is an apply that succeeds. *)
Theorem main_output (args : Args) (w : world) :
  is_Some (fs w !! src_root (root args)) →
  stdout (main REPO_ROOT args w).2
  = stdout w ++ generated_of REPO_ROOT (root args) (fs w)
      :: (if apply args then
            match (main REPO_ROOT args w).1 with
            | Ok _ => [applied_message (root args)]
            | Raise _ => []
            end
          else []).
Proof.
  destruct args as [r [|]]; cbn [root apply]; intros [n Hn].
  - change {| root := r; apply := true |} with (applying r).
    rewrite (main_apply_run REPO_ROOT r w n Hn).
    unfold mbind, M_bind, bind at 1 2.
    match goal with
    | |- context [choose_input ?b ?k ?w0] =>
        destruct (choose_input b k w0) as [[src|e] w1] eqn:Hc;
        pose proof (choose_input_keeps _ _ _ _ _ Hc) as (Hout & _ & _)
    end.
    + apply choose_input_ok in Hc as (-> & Hnone & _ & _);
        [|apply build_ne_backup|apply build_backup_length].
      match goal with
      | |- context [guarded_patch ?i ?o ?k ?g ?w0] =>
          destruct (replace_block_in_build_paths i o g w0) as [[[]|e] w2] eqn:Hp
      end.
      * rewrite (guarded_patch_ok _ _ (backup_path_of r) _ _ _ Hp). cbn [fst snd stdout].
        apply patch_ok_keeps in Hp as (Hout2 & _ & _). rewrite Hout2, Hout. cbn [stdout].
        now rewrite <- app_assoc.
      * destruct (guarded_patch_failure _ _ (backup_path_of r) _ _ _ _ Hnone Hp)
          as (w3 & -> & _ & _ & Hout3 & _).
        cbn [fst snd]. rewrite Hout3, Hout. reflexivity.
    + cbn [fst snd]. rewrite Hout. reflexivity.
  - rewrite main_dry_run, Hn. reflexivity.
Qed.

(** X17. The backup path is a directory: the move of the build file fails
    with [IsADirectoryError] before anything is read or written; the error
    leaves the run uncaught, the block has been printed, and the file system
    is what it was. *)
Theorem backup_is_directory (r : path) (w : world) (t : text) :
  is_Some (fs w !! src_root r) →
  replace_fault (io w) (build_path_of r) (backup_path_of r) = None →
  fs w !! build_path_of r = Some (File t) →
  fs w !! backup_path_of r = Some Dir →
  main REPO_ROOT (applying r) w
  = (Raise (Exc IsADirectoryError),
     {| fs := fs w; stdout := stdout w ++ [generated_of REPO_ROOT r (fs w)]; io := io w |}).
Proof.
  intros [n Hn] Hrf Hb Hk.
  rewrite (main_apply_run REPO_ROOT r w n Hn).
  unfold mbind, M_bind, bind at 1.
  unfold choose_input, mbind, M_bind, bind. rewrite exists_run. cbn [fs].
  rewrite bool_decide_eq_true_2 by (rewrite Hb; eauto).
  unfold replace. cbn [fs io]. now rewrite Hrf, Hb, Hk.
Qed.

(** The entry of a path below the source root of the repository. *)
Lemma entry_of_default (rel : path) :
  rel ≠ [] →
  entry_of REPO_ROOT (src_root REPO_ROOT ++ rel)
  = prefix ++ replace_char BACKSLASH SLASH (join [SLASH] rel).
Proof.
  intros Hrel.
  assert (E : src_root REPO_ROOT ++ rel
              = REPO_ROOT ++ txt "native" :: txt "flecs" :: txt "src" :: rel)
    by (unfold src_root, div; now rewrite <- !app_assoc).
  rewrite E.
  assert (Hs : str (txt "native" :: txt "flecs" :: txt "src" :: rel)
               = prefix ++ join [SLASH] rel).
  { unfold str. rewrite bool_decide_eq_false_2 by discriminate.
    rewrite !join_cons by (assumption || discriminate).
    reflexivity. }
  assert (Hr : ∀ s, replace_char BACKSLASH SLASH (prefix ++ s)
                    = prefix ++ replace_char BACKSLASH SLASH s)
    by (intros s; unfold replace_char; now rewrite map_app).
  destruct REPO_ROOT as [|a q] eqn:ER.
  - cbn [app]. unfold entry_of, relative_to, is_absolute.
    rewrite bool_decide_eq_false_2 by discriminate.
    now rewrite Hs, Hr.
  - rewrite <- ER. rewrite entry_of_under by (rewrite ER; discriminate).
    now rewrite Hs, Hr.
Qed.

(** X18. With the default root no discovered file is lost: for the source
    root of the repository itself, the entry of every path that the
    discoverer finds starts with the prefix of the renderer, and its quoted
    line stands on a line of its own in the block that the run prints. *)
Theorem default_root_lists_every_file (w : world) (p : path) :
  p ∈ rglob_paths (txt ".c") (src_root REPO_ROOT) (fs w) →
  startswith prefix (entry_of REPO_ROOT p) = true
  ∧ ∃ a b, generated_of REPO_ROOT REPO_ROOT (fs w)
           = a ++ NL :: entry_line (entry_of REPO_ROOT p) ++ NL :: b.
Proof.
  intros Hp.
  assert (Hpre : startswith prefix (entry_of REPO_ROOT p) = true).
  { apply rglob_paths_spec in Hp as (_ & _ & Hu & _).
    apply under_spec in Hu as (rel & Hrel & ->).
    rewrite entry_of_default by assumption. apply startswith_spec. eauto. }
  split; [exact Hpre|].
  unfold generated_of. apply rendered_entry_line; [|exact Hpre].
  apply list_elem_of_In, in_map, list_elem_of_In, sorted_paths_elem, Hp.
Qed.

End Frame.

Lemma main_touches_two_paths_witness :
  fs (main repo (applying repo) repo_world).2 !! src_root repo
  = fs repo_world !! src_root repo.
Proof.
  apply (main_touches_two_paths repo (applying repo) repo_world (src_root repo)).
  - vm_compute. discriminate.
  - apply src_root_ne_build.
  - apply src_root_ne_backup.
Defined.

Lemma main_output_witness :
  stdout (main repo (applying other) other_world).2
  = [] ++ generated_of repo other other_fs
      :: match (main repo (applying other) other_world).1 with
         | Ok _ => [applied_message other]
         | Raise _ => []
         end.
Proof.
  apply (main_output repo (applying other) other_world).
  exists Dir. vm_compute. reflexivity.
Defined.

Lemma backup_is_directory_witness :
  (main repo (applying repo) dir_backup_world).1 = Raise (Exc IsADirectoryError).
Proof.
  rewrite (backup_is_directory repo repo dir_backup_world old_build).
  - reflexivity.
  - exists Dir. vm_compute. reflexivity.
  - reflexivity.
  - vm_compute. reflexivity.
  - apply lookup_insert_eq.
Defined.

Lemma default_root_lists_every_file_witness :
  startswith prefix (entry_of repo sample_source) = true.
Proof.
  destruct (default_root_lists_every_file repo repo_world sample_source) as [H _].
  - apply (bool_decide_unpack _). vm_compute. exact I.
  - exact H.
Defined.

(** ** A failed write, and the run after it *)

Section Rerun.

Variable REPO_ROOT : path.

(** X19. A failed write is recovered by the next run: when the write of the
    patched text fails, with or without a partial file, and the partial file
    can be deleted, the run ends with the error of the write and leaves the
    original text at the backup path and no build file; a later run on that
    file system, with no failure, succeeds and writes the text that the
    failed run was to write, the backup still holding the original. *)
Theorem failed_write_then_rerun (r : path) (w : world) (t0 t1 : text)
    (partial : option text) (e : exception) :
  is_Some (fs w !! src_root r) →
  replace_fault (io w) (build_path_of r) (backup_path_of r) = None →
  read_fault (io w) (backup_path_of r) = None →
  unlink_fault (io w) (build_path_of r) = None →
  fs w !! build_path_of r = Some (File t0) →
  fs w !! backup_path_of r ≠ Some Dir →
  replace_block t0 (generated_of REPO_ROOT r (fs w)) = Ok t1 →
  write_fault (io w) (build_path_of r) t1 = Some (partial, e) →
  ∃ w1 w2,
    main REPO_ROOT (applying r) w = (Raise (Exc e), w1)
    ∧ fs w1 = <[backup_path_of r := File t0]> (delete (build_path_of r) (fs w))
    ∧ main REPO_ROOT (applying r) {| fs := fs w1; stdout := stdout w1; io := no_faults |}
      = (Ok tt, w2)
    ∧ fs w2 !! build_path_of r = Some (File t1)
    ∧ fs w2 !! backup_path_of r = Some (File t0).
Proof.
  intros [n Hn] Hrf Hread Hu Hb Hk Hpatch Hw.
  assert (Hbk : build_path_of r ≠ backup_path_of r) by apply build_ne_backup.
  assert (Hsb : src_root r ≠ build_path_of r) by apply src_root_ne_build.
  assert (Hsk : src_root r ≠ backup_path_of r) by apply src_root_ne_backup.
  pose (w0 := {| fs := fs w; stdout := stdout w ++ [generated_of REPO_ROOT r (fs w)];
                 io := io w |}).
  pose (wA := set_fs w0 (<[backup_path_of r := File t0]>
                           (delete (build_path_of r) (fs w0)))).
  assert (Hc : choose_input (build_path_of r) (backup_path_of r) w0
               = (Ok (backup_path_of r), wA)) by now apply choose_input_fresh.
  assert (Hnone : fs wA !! build_path_of r = None).
  { unfold wA, w0. cbn [fs set_fs].
    rewrite lookup_insert_ne by congruence. apply lookup_delete_eq. }
  assert (Hp : ∃ wB, replace_block_in_build_paths (backup_path_of r) (build_path_of r)
                       (generated_of REPO_ROOT r (fs w)) wA = (Raise (Exc e), wB)).
  { rewrite patch_run with (t := t0);
      [|exact Hread|unfold wA; cbn [fs set_fs]; apply lookup_insert_eq].
    rewrite Hpatch. unfold write_text.
    replace (io wA) with (io w) by reflexivity. rewrite Hw.
    destruct partial; eexists; reflexivity. }
  destruct Hp as [wB Hp].
  destruct (guarded_patch_failure _ _ (backup_path_of r) _ _ _ _ Hnone Hp)
    as (w3 & Hg & Hother & Htarget & _ & _).
  assert (Hb3 : fs w3 !! build_path_of r = None).
  { destruct Htarget as [H|[[x Hx] _]]; [exact H|].
    replace (io wA) with (io w) in Hx by reflexivity. congruence. }
  assert (Efs : fs w3 = <[backup_path_of r := File t0]> (delete (build_path_of r) (fs w))).
  { apply map_eq. intros p. destruct (decide (p = build_path_of r)) as [->|Hne].
    - rewrite Hb3, lookup_insert_ne by congruence. now rewrite lookup_delete_eq.
    - rewrite Hother by assumption. reflexivity. }
  exists w3. eexists. split; [|split; [exact Efs|split; [|split]]].
  - rewrite (main_apply_run REPO_ROOT r w n Hn).
    unfold mbind, M_bind, bind at 1. fold w0. rewrite Hc. exact Hg.
  - apply (apply_from_backup_run REPO_ROOT r _ t0 t1 n); cbn [fs io].
    + now rewrite Efs, lookup_insert_ne, lookup_delete_ne by congruence.
    + reflexivity.
    + reflexivity.
    + exact Hb3.
    + rewrite Efs. apply lookup_insert_eq.
    + now rewrite Efs, generated_of_insert_backup, generated_of_delete_build.
  - cbn [fs]. apply lookup_insert_eq.
  - cbn [fs]. rewrite lookup_insert_ne by congruence. rewrite Efs. apply lookup_insert_eq.
Qed.

(** X20. A run without [--apply] only prints: the file system and the
    failures to come are what they were, and the run succeeds exactly when
    the source root exists; when it does not, nothing is printed either. *)
Theorem dry_run_only_prints (r : path) (w : world) :
  fs (main REPO_ROOT {| root := r; apply := false |} w).2 = fs w
  ∧ io (main REPO_ROOT {| root := r; apply := false |} w).2 = io w
  ∧ ((main REPO_ROOT {| root := r; apply := false |} w).1 = Ok tt
     ↔ is_Some (fs w !! src_root r))
  ∧ (fs w !! src_root r = None →
     stdout (main REPO_ROOT {| root := r; apply := false |} w).2 = stdout w).
Proof.
  rewrite main_dry_run. destruct (fs w !! src_root r) as [n|]; cbn [fst snd fs io stdout].
  - repeat split; eauto. discriminate.
  - repeat split; try discriminate. intros [? ?]. discriminate.
Qed.

End Rerun.

Lemma failed_write_then_rerun_witness :
  ∃ w1 w2,
    main repo (applying repo) flaky_disk_world = (Raise (Exc OSError), w1)
    ∧ main repo (applying repo) {| fs := fs w1; stdout := stdout w1; io := no_faults |}
      = (Ok tt, w2)
    ∧ fs w2 !! build_path_of repo = Some (File patched_once).
Proof.
  destruct (failed_write_then_rerun repo repo flaky_disk_world old_build patched_once
              (Some (take 10 patched_once)) OSError)
    as (w1 & w2 & H1 & _ & H2 & H3 & _).
  - exists Dir. vm_compute. reflexivity.
  - reflexivity.
  - reflexivity.
  - reflexivity.
  - vm_compute. reflexivity.
  - vm_compute. discriminate.
  - exact sample_first_patch.
  - reflexivity.
  - exists w1, w2. auto.
Defined.
